(** * integer: an arbitrary precision integer type

    A shallow embedding of [integer.h].  The header carries the data
    layout, [setFromZ], the iterator constructor, [log] and [pow]; the
    bodies of the operators live in a translation unit that is not part of
    the sources at hand, so they are modelled from the specification and
    marked as such. *)

From Stdlib Require Import ZArith Bool Lia Ascii String List.
Import ListNotations.
Local Open Scope Z_scope.

(* ================================================================== *)
(** * Part I: the embedding *)
(* ================================================================== *)

(** ** Digits and representation *)

(** [typedef uint8_t DIGIT;] and the constants derived from it; [NEG1] is
    [-1] converted to the unsigned digit type. *)
Definition OCTETS : Z := 1.
Definition BITS : Z := Z.shiftl OCTETS 3.
Definition NEG1 : Z := (-1) mod 2 ^ BITS.
Definition HIGH_BIT : Z := Z.shiftl 1 (BITS - 1).

(** The radix [2^BITS] (the specification's B). *)
Definition BASE : Z := 2 ^ BITS.

(** [typedef std::deque <DIGIT> REP;] -- most significant digit first. *)
Definition REP : Type := list Z.

(** [bool _sign; REP _value;] with [false] = positive, [true] = negative. *)
Record integer : Type := mk_integer { _sign : bool; _value : REP }.

(** The magnitude a digit sequence stands for, and the mathematical integer
    a sign-magnitude pair stands for. *)
Definition mag (v : REP) : Z := fold_left (fun acc d => acc * BASE + d) v 0.

Definition value (x : integer) : Z :=
  if _sign x then - mag (_value x) else mag (_value x).

(** The same magnitude read from a sequence that starts at the units digit
    (the order in which the carry loops walk the deque).  The cells need not
    be reduced digits. *)
Fixpoint lsd (v : list Z) : Z :=
  match v with
  | [] => 0
  | d :: v' => d + BASE * lsd v'
  end.

(** A digit is a [uint8_t]. *)
Definition digit (d : Z) : Prop := 0 <= d < BASE.

(** A cell of a double-width buffer that holds no negative number. *)
Definition nonneg (x : Z) : Prop := 0 <= x.

(** The representation invariant: every digit in range, no leading zero
    digit, and zero (the empty sequence) is non-negative. *)
Record wf (x : integer) : Prop := mk_wf {
  wf_digits : Forall digit (_value x);
  wf_trimmed : hd 1 (_value x) <> 0;
  wf_zero : _value x = [] -> _sign x = false
}.

(** The invariant as a test that can be run on a given value. *)
Definition is_wf (x : integer) : bool :=
  forallb (fun d => (0 <=? d) && (d <? BASE)) (_value x)
  && negb (hd 1 (_value x) =? 0)
  && match _value x with [] => negb (_sign x) | _ :: _ => true end.

(** ** Exceptions and outcomes *)

(** The exceptions the code throws, one constructor per message of the
    iterator constructor, plus the division error of the specification. *)
Inductive exn : Type :=
| NonDigit            (* "Error: Non-digit found" *)
| NotHexLetter        (* "Error: Character not between 'a' and 'f' found" *)
| NonAlphanumeric     (* "Error: Non-alphanumeric character found" *)
| BadBaseProvided (base : Z)  (* "Error: Bad base provided: " + base *)
| DivisionByZeroFound.

(** The three error kinds of the specification. *)
Inductive error_kind : Type := InvalidDigit | BadBase | DivisionByZero.

Definition kind_of (e : exn) : error_kind :=
  match e with
  | NonDigit | NotHexLetter | NonAlphanumeric => InvalidDigit
  | BadBaseProvided _ => BadBase
  | DivisionByZeroFound => DivisionByZero
  end.

(** What a call does: it returns, it throws, or the loop it runs has not
    finished within the given number of rounds. *)
Inductive outcome (A : Type) : Type :=
| Returns (a : A)
| Throws (e : exn)
| OutOfFuel.
Arguments Returns {A} a.
Arguments Throws {A} e.
Arguments OutOfFuel {A}.

Definition bind {A B : Type} (m : outcome A) (k : A -> outcome B) : outcome B :=
  match m with
  | Returns a => k a
  | Throws e => Throws e
  | OutOfFuel => OutOfFuel
  end.

Notation "x <- m ;; k" := (bind m (fun x => k))
  (at level 61, m at next level, right associativity).

(** The call throws an exception of the given kind. *)
Definition throws_kind {A : Type} (o : outcome A) (k : error_kind) : Prop :=
  exists e, o = Throws e /\ kind_of e = k.

(** ** Native integer types *)

(** The fixed-width types the templates are instantiated with. *)
Record ctype : Type := mk_ctype { is_signed : bool; width : Z }.

Definition uint8_t : ctype := mk_ctype false 8.
Definition uint16_t : ctype := mk_ctype false 16.
Definition uint32_t : ctype := mk_ctype false 32.
Definition uint64_t : ctype := mk_ctype false 64.
Definition int8_t : ctype := mk_ctype true 8.
Definition int16_t : ctype := mk_ctype true 16.
Definition int32_t : ctype := mk_ctype true 32.
Definition int64_t : ctype := mk_ctype true 64.

Definition native_types : list ctype :=
  [uint8_t; uint16_t; uint32_t; uint64_t; int8_t; int16_t; int32_t; int64_t].

Definition min_value (t : ctype) : Z :=
  if is_signed t then - 2 ^ (width t - 1) else 0.

Definition max_value (t : ctype) : Z :=
  if is_signed t then 2 ^ (width t - 1) - 1 else 2 ^ width t - 1.

Definition in_range (t : ctype) (z : Z) : Prop :=
  min_value t <= z <= max_value t.

(** Conversion of a mathematical result back to the type: reduction modulo
    [2^width], read as two's complement for a signed type. *)
Definition wrap (t : ctype) (z : Z) : Z :=
  if is_signed t
  then (z + 2 ^ (width t - 1)) mod 2 ^ width t - 2 ^ (width t - 1)
  else z mod 2 ^ width t.

(** ** Normalisation *)

(** Modelled from the spec: [trim] is only declared in the header.  It
    removes leading zero digits until the sequence is empty or starts with a
    non-zero digit; an empty result gets the non-negative sign. *)
Fixpoint trim_digits (v : REP) : REP :=
  match v with
  | [] => []
  | d :: v' => if d =? 0 then trim_digits v' else v
  end.

Definition trim (x : integer) : integer :=
  let v := trim_digits (_value x) in
  {| _sign := match v with [] => false | _ :: _ => _sign x end; _value := v |}.

(** Modelled from the spec: the default constructor [integer()] gives zero
    and [integer(const REP &, const bool &)] builds from formed pieces and
    trims. *)
Definition integer_zero : integer := {| _sign := false; _value := [] |}.

Definition integer_rep (rhs : REP) (sign : bool) : integer :=
  trim {| _sign := sign; _value := rhs |}.

(** ** Construction from a native integer: [setFromZ] *)

(** The loop [while (val){ _value.push_front(val & NEG1); val >>= BITS; }].
    [val] has type [Z]: the shifted value is converted back to it. *)
Fixpoint setFromZ_loop (t : ctype) (fuel : nat) (val : Z) (v : REP)
  : outcome REP :=
  match fuel with
  | O => OutOfFuel
  | S fuel' =>
      if val =? 0 then Returns v
      else setFromZ_loop t fuel' (wrap t (Z.shiftr val BITS))
             (Z.land val NEG1 :: v)
  end.

(** [template <typename Z> void setFromZ(Z val, const uint16_t & bits)].
    The negation [val = -val] is computed and converted back to [Z]; for the
    types narrower than [int] that is the conversion of the promoted result,
    for [int32_t] and [int64_t] the wrap-around of the overflowing
    negation. *)
Definition setFromZ (t : ctype) (fuel : nat) (val : Z) : outcome integer :=
  let sign := val <? 0 in
  let val := if val <? 0 then wrap t (- val) else val in
  v <- setFromZ_loop t fuel val [] ;;
  Returns (trim {| _sign := sign; _value := v |}).

(** Rounds that suffice for every value on which the loop of [setFromZ]
    stops: one per digit of the type and the final test. *)
Definition rounds (t : ctype) : nat := S (Z.to_nat (width t / BITS)).

(** Modelled from the spec: the constructors [integer(const uint16_t &)],
    [integer(const int32_t &)], ... are only declared in the header; they
    construct from the native value through [setFromZ].  On the one value of
    a signed type where [setFromZ] does not stop no integer is produced; the
    operands promoted below are never that value. *)
Definition integer_of (t : ctype) (val : Z) : integer :=
  match setFromZ t (rounds t) val with
  | Returns x => x
  | _ => integer_zero
  end.

(** ** Comparison *)

(** Modelled from the spec: [gt] and [lt] are only declared in the header.
    Magnitude comparison: if the digit counts differ the longer magnitude is
    the greater, otherwise the digits decide from the most significant end. *)
Fixpoint gt_digits (a b : REP) : bool :=
  match a, b with
  | x :: a', y :: b' => if x =? y then gt_digits a' b' else y <? x
  | _, _ => false
  end.

Definition gt (lhs rhs : integer) : bool :=
  let n := length (_value lhs) in
  let m := length (_value rhs) in
  if (m <? n)%nat then true
  else if (n <? m)%nat then false
  else gt_digits (_value lhs) (_value rhs).

Definition lt (lhs rhs : integer) : bool := gt rhs lhs.

(** Modelled from the spec: the signed comparisons are only declared in the
    header.  Different signs: the non-negative one is greater; both
    non-negative: [gt] on the magnitudes; both negative: [gt] reversed. *)
Definition operator_gt (lhs rhs : integer) : bool :=
  match _sign lhs, _sign rhs with
  | false, true => true
  | true, false => false
  | false, false => gt lhs rhs
  | true, true => gt rhs lhs
  end.

Definition operator_le (lhs rhs : integer) : bool := negb (operator_gt lhs rhs).

(** Modelled from the spec: equality compares sign and digits, and ignores
    the sign when both magnitudes are empty. *)
Definition eq_digits (a b : REP) : bool :=
  if list_eq_dec Z.eq_dec a b then true else false.

Definition operator_eq (lhs rhs : integer) : bool :=
  match _value lhs, _value rhs with
  | [], [] => true
  | _, _ => Bool.eqb (_sign lhs) (_sign rhs) && eq_digits (_value lhs) (_value rhs)
  end.

(** Modelled from the spec: [operator bool] tells whether the value is
    non-zero. *)
Definition operator_bool (x : integer) : bool :=
  negb (forallb (fun d => d =? 0) (_value x)).

(** Modelled from the spec: [abs] is only declared in the header; it returns
    the positive value. *)
Definition abs (x : integer) : integer := integer_rep (_value x) false.

(** ** Addition and subtraction *)

(** Modelled from the spec: [add] is only declared in the header.  The
    magnitudes are aligned at the units digit and summed from low to high
    with a rolling carry; the remaining carry becomes a new high digit.  The
    helpers work on the reversed sequence, units digit first. *)
Fixpoint add_carry (a : REP) (carry : Z) : REP :=
  match a with
  | [] => [carry]
  | x :: a' => let s := x + carry in s mod BASE :: add_carry a' (s / BASE)
  end.

Fixpoint add_digits (a b : REP) (carry : Z) : REP :=
  match a, b with
  | x :: a', y :: b' =>
      let s := x + y + carry in s mod BASE :: add_digits a' b' (s / BASE)
  | [], _ => add_carry b carry
  | _, [] => add_carry a carry
  end.

Definition add (lhs rhs : integer) : integer :=
  integer_rep (rev (add_digits (rev (_value lhs)) (rev (_value rhs)) 0)) false.

(** Modelled from the spec: [long_sub] is only declared in the header.  It
    requires |lhs| >= |rhs|; from low to high it computes
    lhs_digit - rhs_digit - borrow, and when that is negative adds B and
    sets the borrow. *)
Fixpoint sub_digits (a b : REP) (borrow : Z) : REP :=
  match a with
  | [] => []
  | x :: a' =>
      let d := x - hd 0 b - borrow in
      if d <? 0 then d + BASE :: sub_digits a' (tl b) 1
      else d :: sub_digits a' (tl b) 0
  end.

Definition long_sub (lhs rhs : integer) : integer :=
  integer_rep (rev (sub_digits (rev (_value lhs)) (rev (_value rhs)) 0)) false.

(** Modelled from the spec: [operator+] is only declared in the header.
    Same sign: add the magnitudes and keep the sign.  Different signs:
    subtract the smaller magnitude from the larger, the sign is that of the
    larger magnitude; equal magnitudes give zero. *)
Definition operator_plus (lhs rhs : integer) : integer :=
  if Bool.eqb (_sign lhs) (_sign rhs)
  then integer_rep (_value (add lhs rhs)) (_sign lhs)
  else if gt lhs rhs then integer_rep (_value (long_sub lhs rhs)) (_sign lhs)
  else if lt lhs rhs then integer_rep (_value (long_sub rhs lhs)) (_sign rhs)
  else integer_zero.

(** Modelled from the spec: [operator-] dispatches on the signs
    symmetrically to [operator+]. *)
Definition operator_minus (lhs rhs : integer) : integer :=
  if negb (Bool.eqb (_sign lhs) (_sign rhs))
  then integer_rep (_value (add lhs rhs)) (_sign lhs)
  else if gt lhs rhs then integer_rep (_value (long_sub lhs rhs)) (_sign lhs)
  else if lt lhs rhs
       then integer_rep (_value (long_sub rhs lhs)) (negb (_sign lhs))
  else integer_zero.

(** ** Multiplication *)

(** Modelled from the spec: [operator*] is only declared in the header.
    Schoolbook multiplication: for each digit d_i of rhs and each digit e_j
    of lhs the product d_i * e_j is accumulated into position i + j of a
    result buffer of double-width cells, and a second pass propagates the
    carries.  The helpers work units digit first.  The FFT path is required
    to agree with this one on every input, so it is not modelled apart. *)
Fixpoint accumulate_row (buf row : list Z) : list Z :=
  match buf, row with
  | x :: buf', y :: row' => x + y :: accumulate_row buf' row'
  | [], _ => row
  | _, [] => buf
  end.

Fixpoint accumulate (lhs rhs : REP) : list Z :=
  match rhs with
  | [] => []
  | d :: rhs' => accumulate_row (map (Z.mul d) lhs) (0 :: accumulate lhs rhs')
  end.

Fixpoint propagate (buf : list Z) (carry : Z) : REP :=
  match buf with
  | [] => [carry]
  | x :: buf' => let s := x + carry in s mod BASE :: propagate buf' (s / BASE)
  end.

Definition operator_mul (lhs rhs : integer) : integer :=
  integer_rep
    (rev (propagate (accumulate (rev (_value lhs)) (rev (_value rhs))) 0))
    (xorb (_sign lhs) (_sign rhs)).

(** ** Shifts and bitwise or *)

(** Modelled from the spec: [operator<<] is only declared in the header.
    Left shift by k = q * W + r: a shift by r inside the digits with a
    rolling carry across adjacent digits from high to low, and q zero digits
    appended at the units end.  The sign is kept.  The amount is given by
    its value; an amount that is not positive leaves the operand as it is. *)
Fixpoint shl_digits (r : Z) (v : REP) : REP :=
  match v with
  | [] => []
  | d :: v' =>
      (d * 2 ^ r) mod BASE + hd 0 v' / 2 ^ (BITS - r) :: shl_digits r v'
  end.

Definition operator_shl (lhs : integer) (shift : Z) : integer :=
  if shift <=? 0 then lhs
  else
    let q := Z.to_nat (shift / BITS) in
    let r := shift mod BITS in
    let v := _value lhs in
    integer_rep ((hd 0 v / 2 ^ (BITS - r) :: shl_digits r v) ++ repeat 0 q)
      (_sign lhs).

(** Modelled from the spec: [operator>>] is only declared in the header.
    Right shift by k = q * W + r: q digits are dropped from the units end
    and the rest is shifted by r inside the digits with a rolling borrow
    from the next higher digit.  The magnitude is shifted, the sign kept. *)
Fixpoint shr_digits (r : Z) (prev : Z) (v : REP) : REP :=
  match v with
  | [] => []
  | d :: v' =>
      (prev * 2 ^ (BITS - r)) mod BASE + d / 2 ^ r :: shr_digits r d v'
  end.

Definition operator_shr (lhs : integer) (shift : Z) : integer :=
  if shift <=? 0 then lhs
  else
    let q := Z.to_nat (shift / BITS) in
    let r := shift mod BITS in
    let v := _value lhs in
    integer_rep (shr_digits r 0 (firstn (length v - q) v)) (_sign lhs).

(** Modelled from the spec: [operator|] is only declared in the header.  It
    works digit by digit on the magnitudes aligned at the units digit, the
    shorter one extended with zeros at the high end; the result has lhs's
    sign. *)
Fixpoint or_digits (a b : REP) : REP :=
  match a, b with
  | x :: a', y :: b' => Z.lor x y :: or_digits a' b'
  | [], _ => b
  | _, [] => a
  end.

Definition operator_or (lhs rhs : integer) : integer :=
  integer_rep (rev (or_digits (rev (_value lhs)) (rev (_value rhs))))
    (_sign lhs).

(** Modelled from the spec: [bits] is only declared in the header.
    (digit_count - 1) * W + (W - leading zeros of the top digit), and zero
    for zero. *)
Definition leading_zeros (d : Z) : Z :=
  if d =? 0 then BITS else BITS - 1 - Z.log2 d.

Definition bits (x : integer) : Z :=
  match _value x with
  | [] => 0
  | d :: v' => Z.of_nat (length v') * BITS + (BITS - leading_zeros d)
  end.

(** ** Division and modulus *)

(** Modelled from the spec: [non_recursive_divmod] is only declared in the
    header.  With n = bits(lhs): copyd = rhs << (n - 1),
    adder = 1 << (n - 1), copyn = lhs, q = 0; then one round per bit of lhs
    (i = 0 .. n - 1, the reading of "for i from 0 to n" that goes with a
    mask of n bits) of: if copyd <= copyn then copyn -= copyd and
    q |= adder; copyd >>= 1; adder >>= 1.  The remainder is what is left in
    copyn. *)
Fixpoint divmod_rounds (i : nat) (copyd adder copyn q : integer)
  : integer * integer :=
  match i with
  | O => (q, copyn)
  | S i' =>
      let taken := operator_le copyd copyn in
      let copyn := if taken then operator_minus copyn copyd else copyn in
      let q := if taken then operator_or q adder else q in
      divmod_rounds i' (operator_shr copyd 1) (operator_shr adder 1) copyn q
  end.

Definition non_recursive_divmod (lhs rhs : integer) : integer * integer :=
  let n := bits lhs in
  let copyd := operator_shl rhs (n - 1) in
  let adder := operator_shl (integer_of int32_t 1) (n - 1) in
  divmod_rounds (Z.to_nat n) copyd adder lhs (integer_of int32_t 0).

(** Modelled from the spec: [dm], the division ignoring signs, is only
    declared in the header.  A zero divisor is rejected. *)
Definition dm (lhs rhs : integer) : outcome (integer * integer) :=
  if operator_bool rhs then Returns (non_recursive_divmod lhs rhs)
  else Throws DivisionByZeroFound.

(** Modelled from the spec: [operator/] and [operator%] are only declared in
    the header.  The quotient gets the xor of the operand signs, the
    remainder the sign of the dividend. *)
Definition operator_div (lhs rhs : integer) : outcome integer :=
  qr <- dm (abs lhs) (abs rhs) ;;
  Returns (integer_rep (_value (fst qr)) (xorb (_sign lhs) (_sign rhs))).

Definition operator_mod (lhs rhs : integer) : outcome integer :=
  qr <- dm (abs lhs) (abs rhs) ;;
  Returns (integer_rep (_value (snd qr)) (_sign lhs)).

(** ** Character classification *)

(** The [<cctype>] predicates in the "C" locale, on the character code. *)
Definition code (c : ascii) : Z := Z.of_N (N_of_ascii c).

Definition between (lo hi c : ascii) : bool :=
  (code lo <=? code c) && (code c <=? code hi).

Definition isdigit (c : ascii) : bool := between "0" "9" c.
Definition islower (c : ascii) : bool := between "a" "z" c.
Definition isupper (c : ascii) : bool := between "A" "Z" c.
Definition isalpha (c : ascii) : bool := islower c || isupper c.
Definition isxdigit (c : ascii) : bool :=
  isdigit c || between "a" "f" c || between "A" "F" c.

(** The base-16 alphabet of the specification: 0..9, a..f, A..F. *)
Definition hex_alphabet (c : ascii) : bool :=
  between "0" "9" c || between "a" "f" c || between "A" "F" c.

(** The bases the specification accepts for parsing: 2..10, 16 and 256. *)
Definition accepted_base (base : Z) : bool :=
  (2 <=? base) && (base <=? 10) || (base =? 16) || (base =? 256).

(** The digit the code adds for a character in the base-16 branch. *)
Definition hex_step (c : ascii) : Z :=
  if isdigit c then code c - code "0"
  else if islower c then code c - code "a"
  else code c - code "A".

(** ** Construction from an iterator range *)

(** The loop of the branch [(2 <= base) && (base <= 10)]:
    [this += (this * base) + (c - '0')] for the character [c] at [start]. *)
Fixpoint parse_decimal (base : Z) (input : list ascii) (this : integer)
  : outcome integer :=
  match input with
  | [] => Returns this
  | c :: rest =>
      if negb (isdigit c) then Throws NonDigit
      else
        parse_decimal base rest
          (operator_plus this
             (operator_plus (operator_mul this (integer_of uint16_t base))
                (integer_of int32_t (code c - code "0"))))
  end.

(** The loop of the branch [base == 16]: [this <<= 4] and then the
    classification of the character. *)
Fixpoint parse_hex (input : list ascii) (this : integer) : outcome integer :=
  match input with
  | [] => Returns this
  | c :: rest =>
      let this := operator_shl this 4 in
      if isxdigit c || isalpha c then
        if isdigit c then
          parse_hex rest (operator_plus this (integer_of int32_t (code c - code "0")))
        else if islower c then
          parse_hex rest (operator_plus this (integer_of int32_t (code c - code "a")))
        else if isupper c then
          parse_hex rest (operator_plus this (integer_of int32_t (code c - code "A")))
        else Throws NotHexLetter
      else Throws NonAlphanumeric
  end.

(** The loop of the branch [base == 256]: [_value.push_back(c)]. *)
Fixpoint parse_bytes (input : list ascii) (this : integer) : integer :=
  match input with
  | [] => this
  | c :: rest =>
      parse_bytes rest {| _sign := _sign this; _value := _value this ++ [code c] |}
  end.

(** [template <typename Iterator>
     integer(Iterator start, const Iterator& end, const uint16_t & base)],
    the range given as the list of its characters. *)
Definition integer_range (input : list ascii) (base : Z) : outcome integer :=
  let s := false in
  match input with
  | [] => Returns integer_zero
  | _ :: _ =>
      this <-
        (if (2 <=? base) && (base <=? 10) then
           parse_decimal base input integer_zero
         else if base =? 16 then parse_hex input integer_zero
         else if base =? 256 then Returns (parse_bytes input integer_zero)
         else Throws (BadBaseProvided base)) ;;
      Returns (trim {| _sign := s; _value := _value this |})
  end.

(** The range of the characters of a string literal. *)
Definition range_of (val : string) : list ascii := list_ascii_of_string val.

(** ** [log] and [pow] *)

(** Modelled from the spec: [operator++] is only declared in the header; it
    adds one. *)
Definition operator_inc (x : integer) : integer :=
  operator_plus x (integer_of int32_t 1).

(** The loop [while (x){ x /= b; count++; }] of [log]. *)
Fixpoint log_loop (fuel : nat) (b x count : integer) : outcome integer :=
  match fuel with
  | O => OutOfFuel
  | S fuel' =>
      if operator_bool x then
        x' <- operator_div x b ;;
        log_loop fuel' b x' (operator_inc count)
      else Returns count
  end.

(** [template <typename Z> integer log(Z b) const], [b] of the native type
    [t] and promoted for the division. *)
Definition log (t : ctype) (fuel : nat) (this : integer) (b : Z)
  : outcome integer :=
  let count := integer_of int32_t 0 in
  let x := this in
  log_loop fuel (integer_of t b) x count.

(** The loop [for(Z x = 0; x < exp; x++)] of [pow], which multiplies
    [result] by [this] in every round. *)
Fixpoint pow_ten_loop (t : ctype) (fuel : nat) (this : integer) (x exp : Z)
  (result : integer) : outcome integer :=
  match fuel with
  | O => OutOfFuel
  | S fuel' =>
      if x <? exp then
        pow_ten_loop t fuel' this (wrap t (x + 1)) exp (operator_mul result this)
      else Returns result
  end.

(** The loop [while (exp)] of [pow]: if [exp & 1] then [result] is
    multiplied by [b]; [exp >>= 1]; [b] is squared. *)
Fixpoint pow_loop (t : ctype) (fuel : nat) (exp : Z) (b result : integer)
  : outcome integer :=
  match fuel with
  | O => OutOfFuel
  | S fuel' =>
      if exp =? 0 then Returns result
      else
        let result :=
          if Z.land exp 1 =? 0 then result else operator_mul result b in
        pow_loop t fuel' (wrap t (Z.shiftr exp 1)) (operator_mul b b) result
  end.

(** [template <typename Z> integer pow(Z exp) const], [exp] of the native
    type [t]. *)
Definition pow (t : ctype) (fuel : nat) (this : integer) (exp : Z)
  : outcome integer :=
  if exp <? 0 then Returns (integer_of int32_t 0)
  else
    let result := integer_of int32_t 1 in
    if operator_eq this (integer_of int32_t 10) then
      pow_ten_loop t fuel this 0 exp result
    else pow_loop t fuel exp this result.


(** The specification's exponentiation, in its own words: while exp is not
    zero, if the low bit is set multiply result by base; square base; shift
    exp right by one; a negative exponent gives zero.  Written on numbers,
    the exponent walked along its binary digits. *)
Fixpoint square_and_multiply (exp : positive) (base result : Z) : Z :=
  match exp with
  | xH => result * base
  | xO exp' => square_and_multiply exp' (base * base) result
  | xI exp' => square_and_multiply exp' (base * base) (result * base)
  end.

Definition binary_squaring (base exp : Z) : Z :=
  match exp with
  | Z0 => 1
  | Zpos p => square_and_multiply p base 1
  | Zneg _ => 0
  end.

(** ** Notions used to state further properties *)

(** The test that opens the base-16 branch,
    [std::isxdigit(c) || std::isalpha(c)]. *)
Definition hex_accepted (c : ascii) : bool := isxdigit c || isalpha c.

(** Two characters that are equal, or one letter in its two cases. *)
Definition same_letter (c d : ascii) : Prop :=
  c = d \/
  (islower c = true /\ code d = code c - 32) \/
  (isupper c = true /\ code d = code c + 32).

(** The character '0' and the byte 0. *)
Definition zero_digit : ascii := "0"%char.
Definition zero_byte : ascii := ascii_of_N 0.

(** The character that holds a digit, as [data()] hands the digits out. *)
Definition byte_of (d : Z) : ascii := ascii_of_N (Z.to_N d).

(* ================================================================== *)
(** * Part II: properties *)
(* ================================================================== *)

(** ** Magnitudes *)

Lemma BASE_eq : BASE = 256.
Proof. reflexivity. Qed.

Lemma BITS_eq : BITS = 8.
Proof. reflexivity. Qed.

Ltac unbase := rewrite ?BASE_eq, ?BITS_eq in *.

(** Well-formedness of the results of the operators is collected here. *)
Create HintDb integer_wf discriminated.

Lemma BASE_pow_pos (n : nat) : 0 < BASE ^ Z.of_nat n.
Proof. apply Z.pow_pos_nonneg; [reflexivity | lia]. Qed.

Lemma BASE_pow_succ (n : nat) : BASE ^ Z.of_nat (S n) = BASE * BASE ^ Z.of_nat n.
Proof. rewrite Nat2Z.inj_succ, Z.pow_succ_r by lia. reflexivity. Qed.

Lemma fold_mag_acc (v : REP) (acc : Z) :
  fold_left (fun a d => a * BASE + d) v acc
  = acc * BASE ^ Z.of_nat (length v) + mag v.
Proof.
  unfold mag. revert acc.
  induction v as [|d v IH]; intros acc.
  - simpl. lia.
  - cbn [fold_left length]. rewrite IH, (IH (0 * BASE + d)), BASE_pow_succ. ring.
Qed.

Lemma mag_nil : mag [] = 0.
Proof. reflexivity. Qed.

Lemma mag_cons (d : Z) (v : REP) :
  mag (d :: v) = d * BASE ^ Z.of_nat (length v) + mag v.
Proof.
  unfold mag at 1. cbn [fold_left]. rewrite fold_mag_acc. ring.
Qed.

Lemma mag_app (a b : REP) :
  mag (a ++ b) = mag a * BASE ^ Z.of_nat (length b) + mag b.
Proof.
  unfold mag at 1. rewrite fold_left_app. fold (mag a). apply fold_mag_acc.
Qed.

Lemma mag_snoc (v : REP) (d : Z) : mag (v ++ [d]) = mag v * BASE + d.
Proof. unfold mag. rewrite fold_left_app. reflexivity. Qed.

Lemma mag_rev (v : list Z) : mag (rev v) = lsd v.
Proof.
  induction v as [|d v IH]; [reflexivity|].
  cbn [rev lsd]. rewrite mag_snoc, IH. ring.
Qed.

Lemma lsd_rev (v : REP) : lsd (rev v) = mag v.
Proof. rewrite <- mag_rev, rev_involutive. reflexivity. Qed.

Lemma mag_bounds (v : REP) :
  Forall digit v -> 0 <= mag v < BASE ^ Z.of_nat (length v).
Proof.
  induction 1 as [|d v Hd _ IH].
  - simpl. rewrite mag_nil. lia.
  - cbn [length]. rewrite mag_cons, BASE_pow_succ. unfold digit in Hd.
    pose proof (BASE_pow_pos (length v)). nia.
Qed.

Lemma lsd_bounds (v : list Z) :
  Forall digit v -> 0 <= lsd v < BASE ^ Z.of_nat (length v).
Proof.
  intros H. rewrite <- mag_rev, <- length_rev. apply mag_bounds.
  apply Forall_rev, H.
Qed.

Lemma mag_lower (d : Z) (v : REP) :
  Forall digit (d :: v) -> d <> 0 -> BASE ^ Z.of_nat (length v) <= mag (d :: v).
Proof.
  intros H Hd. inversion H as [|? ? Hd' Hv]; subst.
  rewrite mag_cons. pose proof (mag_bounds v Hv). unfold digit in Hd'.
  pose proof (BASE_pow_pos (length v)). nia.
Qed.

(** ** Normalisation *)

Lemma trim_digits_mag (v : REP) : mag (trim_digits v) = mag v.
Proof.
  induction v as [|d v IH]; [reflexivity|].
  cbn [trim_digits]. destruct (Z.eqb_spec d 0) as [->|]; [|reflexivity].
  rewrite IH, mag_cons. lia.
Qed.

Lemma trim_digits_Forall (P : Z -> Prop) (v : REP) :
  Forall P v -> Forall P (trim_digits v).
Proof.
  induction 1 as [|d v Hd Hv IH]; [constructor|].
  cbn [trim_digits]. destruct (d =? 0); [assumption | constructor; assumption].
Qed.

Lemma trim_digits_hd (v : REP) : hd 1 (trim_digits v) <> 0.
Proof.
  induction v as [|d v IH]; [simpl; lia|].
  cbn [trim_digits]. destruct (Z.eqb_spec d 0); [assumption | simpl; assumption].
Qed.

Lemma wf_mag_zero (v : REP) :
  Forall digit v -> hd 1 v <> 0 -> mag v = 0 -> v = [].
Proof.
  intros Hv Hh H0. destruct v as [|d v]; [reflexivity|]. simpl in Hh.
  pose proof (mag_lower d v Hv Hh). pose proof (BASE_pow_pos (length v)). lia.
Qed.

Lemma integer_rep_sign_value (v : REP) (s : bool) :
  value (integer_rep v s) = if s then - mag v else mag v.
Proof.
  unfold integer_rep, trim, value. cbn [_sign _value].
  rewrite <- (trim_digits_mag v).
  destruct (trim_digits v) as [|d v'] eqn:E; [|reflexivity].
  rewrite mag_nil. destruct s; reflexivity.
Qed.

Lemma integer_rep_mag (v : REP) (s : bool) :
  mag (_value (integer_rep v s)) = mag v.
Proof. apply trim_digits_mag. Qed.

Lemma integer_rep_wf (v : REP) (s : bool) :
  Forall digit v -> wf (integer_rep v s).
Proof.
  intros Hv. unfold integer_rep, trim. constructor; cbn [_sign _value].
  - apply trim_digits_Forall, Hv.
  - apply trim_digits_hd.
  - intros ->. reflexivity.
Qed.

Lemma integer_rep_sign (v : REP) (s : bool) :
  mag v <> 0 -> _sign (integer_rep v s) = s.
Proof.
  intros H. unfold integer_rep, trim. cbn [_sign _value].
  destruct (trim_digits v) eqn:E; [|reflexivity].
  rewrite <- trim_digits_mag, E in H. contradiction.
Qed.

(** ** Comparison of magnitudes *)

Lemma BASE_pow_mono (n m : nat) : (n <= m)%nat -> BASE ^ Z.of_nat n <= BASE ^ Z.of_nat m.
Proof. intros H. apply Z.pow_le_mono_r; [reflexivity | lia]. Qed.

Lemma gt_digits_spec (a b : REP) :
  Forall digit a -> Forall digit b -> length a = length b ->
  gt_digits a b = (mag b <? mag a).
Proof.
  intros Ha. revert b.
  induction Ha as [|x a Hx Ha IH]; intros b Hb Hlen.
  - destruct b; [reflexivity | discriminate].
  - destruct b as [|y b]; [discriminate|].
    inversion Hb as [|? ? Hy Hb']; subst. injection Hlen as Hlen.
    cbn [gt_digits]. rewrite !mag_cons, <- Hlen.
    pose proof (mag_bounds a Ha). pose proof (mag_bounds b Hb') as Hbb.
    rewrite <- Hlen in Hbb.
    destruct (Z.eqb_spec x y) as [->|Hne].
    + rewrite IH by assumption.
      set (P := BASE ^ Z.of_nat (length a)) in *.
      destruct (Z.ltb_spec (mag b) (mag a)),
        (Z.ltb_spec (y * P + mag b) (y * P + mag a)); try reflexivity; lia.
    + set (P := BASE ^ Z.of_nat (length a)) in *.
      destruct (Z.ltb_spec y x),
        (Z.ltb_spec (y * P + mag b) (x * P + mag a)); try reflexivity; nia.
Qed.

Lemma longer_is_greater (a b : REP) :
  Forall digit a -> Forall digit b -> hd 1 a <> 0 ->
  (length b < length a)%nat -> mag b < mag a.
Proof.
  intros Ha Hb Hh Hlen. destruct a as [|d a]; [simpl in Hlen; lia|].
  cbn [hd length] in *. pose proof (mag_lower d a Ha Hh).
  pose proof (mag_bounds b Hb). pose proof (BASE_pow_mono (length b) (length a)). lia.
Qed.

Lemma gt_spec (a b : integer) :
  wf a -> wf b -> gt a b = (mag (_value b) <? mag (_value a)).
Proof.
  intros [Ha Ha' _] [Hb Hb' _]. unfold gt.
  destruct (Nat.ltb_spec (length (_value b)) (length (_value a))) as [H|H].
  - pose proof (longer_is_greater _ _ Ha Hb Ha' H). symmetry. apply Z.ltb_lt. assumption.
  - destruct (Nat.ltb_spec (length (_value a)) (length (_value b))) as [H'|H'].
    + pose proof (longer_is_greater _ _ Hb Ha Hb' H'). symmetry. apply Z.ltb_ge. lia.
    + apply gt_digits_spec; try assumption. lia.
Qed.

Lemma mag_le_length (a b : integer) :
  wf a -> wf b -> mag (_value b) <= mag (_value a) ->
  (length (_value b) <= length (_value a))%nat.
Proof.
  intros [Ha Ha' _] [Hb Hb' _] H.
  destruct (Nat.leb_spec (length (_value b)) (length (_value a))) as [|H']; [assumption|].
  pose proof (longer_is_greater _ _ Hb Ha Hb' H'). lia.
Qed.

(** ** Addition *)

Lemma add_carry_lsd (a : REP) (c : Z) : lsd (add_carry a c) = lsd a + c.
Proof.
  revert c. induction a as [|x a IH]; intros c.
  - cbn [add_carry lsd]. lia.
  - cbn [add_carry lsd]. rewrite IH. unbase.
    pose proof (Z.div_mod (x + c) 256). lia.
Qed.

Lemma add_digits_lsd (a b : REP) (c : Z) :
  lsd (add_digits a b c) = lsd a + lsd b + c.
Proof.
  revert b c. induction a as [|x a IH]; intros b c.
  - destruct b; cbn [add_digits]; rewrite add_carry_lsd; cbn [lsd]; lia.
  - destruct b as [|y b].
    + cbn [add_digits]. rewrite add_carry_lsd. cbn [lsd]. lia.
    + cbn [add_digits lsd]. rewrite IH. unbase.
      pose proof (Z.div_mod (x + y + c) 256). lia.
Qed.

Lemma add_carry_digits (a : REP) (c : Z) :
  Forall digit a -> 0 <= c <= 1 -> Forall digit (add_carry a c).
Proof.
  intros Ha. revert c. induction Ha as [|x a Hx Ha IH]; intros c Hc.
  - cbn [add_carry]. constructor; [|constructor]. unfold digit; unbase. lia.
  - cbn [add_carry]. unfold digit in Hx; unbase. constructor.
    + unfold digit; unbase. apply Z.mod_pos_bound. lia.
    + apply IH. unbase. split.
      * apply Z.div_pos; lia.
      * apply Z.lt_succ_r. apply Z.div_lt_upper_bound; lia.
Qed.

Lemma add_digits_digits (a b : REP) (c : Z) :
  Forall digit a -> Forall digit b -> 0 <= c <= 1 ->
  Forall digit (add_digits a b c).
Proof.
  intros Ha. revert b c. induction Ha as [|x a Hx Ha IH]; intros b c Hb Hc.
  - destruct b; cbn [add_digits]; apply add_carry_digits; assumption.
  - destruct b as [|y b].
    + cbn [add_digits]. apply add_carry_digits; [constructor|]; assumption.
    + inversion Hb as [|? ? Hy Hb']; subst. cbn [add_digits].
      unfold digit in Hx, Hy; unbase. constructor.
      * unfold digit; unbase. apply Z.mod_pos_bound. lia.
      * apply IH; [assumption|]. unbase. split.
        -- apply Z.div_pos; lia.
        -- apply Z.lt_succ_r. apply Z.div_lt_upper_bound; lia.
Qed.

Lemma add_wf (a b : integer) : wf a -> wf b -> wf (add a b).
Proof.
  intros [Ha _ _] [Hb _ _]. apply integer_rep_wf, Forall_rev.
  apply add_digits_digits; try apply Forall_rev; try assumption. lia.
Qed.

Lemma add_mag (a b : integer) :
  mag (_value (add a b)) = mag (_value a) + mag (_value b).
Proof.
  unfold add. rewrite integer_rep_mag, mag_rev, add_digits_lsd, !lsd_rev. lia.
Qed.

(** ** Subtraction *)

Lemma lsd_hd_tl (b : list Z) : lsd b = hd 0 b + BASE * lsd (tl b).
Proof. destruct b; cbn [lsd hd tl]; lia. Qed.

Lemma sub_digits_spec (a b : REP) (borrow : Z) :
  Forall digit a -> Forall digit b -> (length b <= length a)%nat ->
  0 <= borrow <= 1 ->
  exists out, 0 <= out <= 1 /\
    lsd (sub_digits a b borrow)
    = lsd a - lsd b - borrow + out * BASE ^ Z.of_nat (length a) /\
    Forall digit (sub_digits a b borrow) /\
    length (sub_digits a b borrow) = length a.
Proof.
  intros Ha. revert b borrow.
  induction Ha as [|x a Hx Ha IH]; intros b borrow Hb Hlen Hbr.
  - destruct b; [|simpl in Hlen; lia]. exists borrow.
    cbn [sub_digits lsd length]. change (BASE ^ Z.of_nat 0) with 1.
    repeat split; try lia. constructor.
  - assert (Hy : digit (hd 0 b)).
    { destruct Hb; [unfold digit; unbase; simpl; lia | assumption]. }
    assert (Hb' : Forall digit (tl b)).
    { destruct Hb; [constructor | assumption]. }
    assert (Hlen' : (length (tl b) <= length a)%nat).
    { destruct b; simpl in *; lia. }
    cbn [sub_digits length]. rewrite (lsd_hd_tl b), BASE_pow_succ.
    unfold digit in Hx, Hy. unbase.
    destruct (Z.ltb_spec (x - hd 0 b - borrow) 0) as [Hneg|Hpos].
    + destruct (IH (tl b) 1 Hb' Hlen' ltac:(lia)) as (out & Ho & Hv & Hd & Hl).
      exists out. cbn [lsd length]. rewrite Hv, Hl. unbase.
      repeat split; try lia.
      constructor; [unfold digit; unbase; lia | assumption].
    + destruct (IH (tl b) 0 Hb' Hlen' ltac:(lia)) as (out & Ho & Hv & Hd & Hl).
      exists out. cbn [lsd length]. rewrite Hv, Hl. unbase.
      repeat split; try lia.
      constructor; [unfold digit; unbase; lia | assumption].
Qed.

Lemma long_sub_wf (a b : integer) :
  wf a -> wf b -> mag (_value b) <= mag (_value a) -> wf (long_sub a b).
Proof.
  intros Ha Hb Hle. pose proof (mag_le_length a b Ha Hb Hle) as Hlen.
  destruct Ha as [Ha _ _], Hb as [Hb _ _].
  destruct (sub_digits_spec (rev (_value a)) (rev (_value b)) 0)
    as (out & _ & _ & Hd & _);
    try (apply Forall_rev; assumption); try lia.
  { rewrite !length_rev. assumption. }
  apply integer_rep_wf, Forall_rev, Hd.
Qed.

Lemma long_sub_mag (a b : integer) :
  wf a -> wf b -> mag (_value b) <= mag (_value a) ->
  mag (_value (long_sub a b)) = mag (_value a) - mag (_value b).
Proof.
  intros Ha Hb Hle. pose proof (mag_le_length a b Ha Hb Hle) as Hlen.
  destruct Ha as [Ha _ _], Hb as [Hb _ _].
  destruct (sub_digits_spec (rev (_value a)) (rev (_value b)) 0)
    as (out & Ho & Hv & Hd & Hl);
    try (apply Forall_rev; assumption); try lia.
  { rewrite !length_rev. assumption. }
  unfold long_sub. rewrite integer_rep_mag, mag_rev, Hv, !lsd_rev.
  pose proof (lsd_bounds _ Hd) as Hbound. rewrite Hv, Hl, !lsd_rev in Hbound.
  pose proof (mag_bounds _ Ha) as Hba. rewrite length_rev in *.
  pose proof (mag_bounds _ Hb) as Hbb.
  assert (out = 0) by nia. subst out. lia.
Qed.

(** ** Signed addition and subtraction *)

Lemma wf_mag_nonneg (x : integer) : wf x -> 0 <= mag (_value x).
Proof. intros [Hd _ _]. apply mag_bounds, Hd. Qed.

Lemma wf_integer_rep_value (x : integer) (s : bool) :
  wf x -> wf (integer_rep (_value x) s).
Proof. intros [Hd _ _]. apply integer_rep_wf, Hd. Qed.

Lemma integer_zero_wf : wf integer_zero.
Proof. constructor; cbn; [constructor | lia | reflexivity]. Qed.

Lemma operator_plus_wf (a b : integer) : wf a -> wf b -> wf (operator_plus a b).
Proof.
  intros Ha Hb. unfold operator_plus, lt.
  destruct (Bool.eqb (_sign a) (_sign b)).
  - apply wf_integer_rep_value, add_wf; assumption.
  - rewrite (gt_spec a b), (gt_spec b a) by assumption.
    destruct (Z.ltb_spec (mag (_value b)) (mag (_value a))).
    + apply wf_integer_rep_value, long_sub_wf; try assumption; lia.
    + destruct (Z.ltb_spec (mag (_value a)) (mag (_value b))).
      * apply wf_integer_rep_value, long_sub_wf; try assumption; lia.
      * apply integer_zero_wf.
Qed.

Lemma operator_plus_value (a b : integer) :
  wf a -> wf b -> value (operator_plus a b) = value a + value b.
Proof.
  intros Ha Hb. unfold operator_plus, lt.
  destruct (Bool.eqb (_sign a) (_sign b)) eqn:Es.
  - apply Bool.eqb_prop in Es. rewrite integer_rep_sign_value, add_mag.
    unfold value. rewrite <- Es. destruct (_sign a); lia.
  - apply Bool.eqb_false_iff in Es.
    rewrite (gt_spec a b), (gt_spec b a) by assumption.
    destruct (Z.ltb_spec (mag (_value b)) (mag (_value a))).
    + rewrite integer_rep_sign_value, long_sub_mag by (try assumption; lia).
      unfold value. destruct (_sign a), (_sign b); try congruence; lia.
    + destruct (Z.ltb_spec (mag (_value a)) (mag (_value b))).
      * rewrite integer_rep_sign_value, long_sub_mag by (try assumption; lia).
        unfold value. destruct (_sign a), (_sign b); try congruence; lia.
      * unfold value. cbn [integer_zero _sign _value]. rewrite mag_nil.
        destruct (_sign a), (_sign b); try congruence; lia.
Qed.

Lemma operator_minus_wf (a b : integer) : wf a -> wf b -> wf (operator_minus a b).
Proof.
  intros Ha Hb. unfold operator_minus, lt.
  destruct (negb (Bool.eqb (_sign a) (_sign b))).
  - apply wf_integer_rep_value, add_wf; assumption.
  - rewrite (gt_spec a b), (gt_spec b a) by assumption.
    destruct (Z.ltb_spec (mag (_value b)) (mag (_value a))).
    + apply wf_integer_rep_value, long_sub_wf; try assumption; lia.
    + destruct (Z.ltb_spec (mag (_value a)) (mag (_value b))).
      * apply wf_integer_rep_value, long_sub_wf; try assumption; lia.
      * apply integer_zero_wf.
Qed.

#[local] Hint Resolve integer_zero_wf add_wf operator_plus_wf operator_minus_wf : integer_wf.

Lemma operator_minus_value (a b : integer) :
  wf a -> wf b -> value (operator_minus a b) = value a - value b.
Proof.
  intros Ha Hb. unfold operator_minus, lt.
  destruct (Bool.eqb (_sign a) (_sign b)) eqn:Es; cbn [negb].
  - apply Bool.eqb_prop in Es.
    rewrite (gt_spec a b), (gt_spec b a) by assumption.
    destruct (Z.ltb_spec (mag (_value b)) (mag (_value a))).
    + rewrite integer_rep_sign_value, long_sub_mag by (try assumption; lia).
      unfold value. rewrite <- Es. destruct (_sign a); lia.
    + destruct (Z.ltb_spec (mag (_value a)) (mag (_value b))).
      * rewrite integer_rep_sign_value, long_sub_mag by (try assumption; lia).
        unfold value. rewrite <- Es. destruct (_sign a); cbn [negb]; lia.
      * unfold value. cbn [integer_zero _sign _value]. rewrite mag_nil, <- Es.
        destruct (_sign a); lia.
  - apply Bool.eqb_false_iff in Es. rewrite integer_rep_sign_value, add_mag.
    unfold value. destruct (_sign a), (_sign b); try congruence; lia.
Qed.

(** ** Multiplication *)

Lemma accumulate_row_lsd (buf row : list Z) :
  lsd (accumulate_row buf row) = lsd buf + lsd row.
Proof.
  revert row. induction buf as [|x buf IH]; intros [|y row];
    cbn [accumulate_row lsd]; try rewrite IH; lia.
Qed.

Lemma accumulate_row_length (buf row : list Z) :
  length (accumulate_row buf row) = Nat.max (length buf) (length row).
Proof.
  revert row. induction buf as [|x buf IH]; intros [|y row];
    cbn [accumulate_row length]; try rewrite IH; lia.
Qed.

Lemma accumulate_row_nonneg (buf row : list Z) :
  Forall nonneg buf -> Forall nonneg row -> Forall nonneg (accumulate_row buf row).
Proof.
  intros Hb. revert row. induction Hb as [|x buf Hx Hb IH]; intros row Hr.
  - destruct row; assumption.
  - destruct Hr as [|y row Hy Hr]; cbn [accumulate_row].
    + constructor; assumption.
    + constructor; [unfold nonneg in *; lia | apply IH, Hr].
Qed.

Lemma scale_lsd (d : Z) (a : list Z) : lsd (map (Z.mul d) a) = d * lsd a.
Proof. induction a as [|x a IH]; cbn [map lsd]; [|rewrite IH]; ring. Qed.

Lemma scale_nonneg (d : Z) (a : list Z) :
  0 <= d -> Forall digit a -> Forall nonneg (map (Z.mul d) a).
Proof.
  intros Hd Ha. apply Forall_map. eapply Forall_impl; [|exact Ha].
  unfold digit, nonneg. intros x Hx. nia.
Qed.

Lemma accumulate_lsd (a b : REP) : lsd (accumulate a b) = lsd a * lsd b.
Proof.
  induction b as [|d b IH]; cbn [accumulate lsd]; [ring|].
  rewrite accumulate_row_lsd, scale_lsd. cbn [lsd]. rewrite IH. ring.
Qed.

Lemma accumulate_nonneg (a b : REP) :
  Forall digit a -> Forall digit b -> Forall nonneg (accumulate a b).
Proof.
  intros Ha Hb. induction Hb as [|d b Hd Hb IH]; cbn [accumulate]; [constructor|].
  apply accumulate_row_nonneg.
  - apply scale_nonneg; [apply Hd | assumption].
  - constructor; [unfold nonneg; lia | assumption].
Qed.

Lemma accumulate_length (a b : REP) :
  b <> [] -> (length a + length b <= S (length (accumulate a b)))%nat.
Proof.
  induction b as [|d b IH]; [congruence|]. intros _.
  cbn [accumulate]. rewrite accumulate_row_length, length_map. cbn [length].
  destruct b as [|e b]; [cbn [accumulate length]; lia|].
  specialize (IH ltac:(discriminate)). cbn [length] in *. lia.
Qed.

Lemma propagate_lsd (buf : list Z) (c : Z) : lsd (propagate buf c) = lsd buf + c.
Proof.
  revert c. induction buf as [|x buf IH]; intros c; cbn [propagate lsd].
  - lia.
  - rewrite IH. unbase. pose proof (Z.div_mod (x + c) 256). lia.
Qed.

Lemma propagate_digits (buf : list Z) (c : Z) :
  Forall nonneg buf -> 0 <= c ->
  lsd buf + c < BASE ^ Z.of_nat (S (length buf)) ->
  Forall digit (propagate buf c).
Proof.
  intros Hb. revert c. induction Hb as [|x buf Hx Hb IH]; intros c Hc Hlt.
  - cbn [propagate]. constructor; [|constructor].
    cbn [lsd length] in Hlt. change (BASE ^ Z.of_nat 1) with BASE in Hlt.
    unfold digit. lia.
  - cbn [propagate]. unfold nonneg in Hx.
    cbn [lsd length] in Hlt. rewrite BASE_pow_succ in Hlt.
    set (P := BASE ^ Z.of_nat (S (length buf))) in *.
    assert (Hn : 0 <= lsd buf).
    { clear -Hb. induction Hb as [|y buf Hy _ IHb]; cbn [lsd]; [lia|].
      unfold nonneg in Hy. unbase. lia. }
    unbase. pose proof (Z.div_mod (x + c) 256 ltac:(lia)).
    pose proof (Z.mod_pos_bound (x + c) 256 ltac:(lia)).
    constructor.
    + unfold digit. unbase. lia.
    + apply IH; [apply Z.div_pos; lia | lia].
Qed.

Lemma mul_digits (a b : REP) :
  Forall digit a -> Forall digit b ->
  Forall digit (propagate (accumulate a b) 0).
Proof.
  intros Ha Hb. apply propagate_digits.
  - apply accumulate_nonneg; assumption.
  - lia.
  - rewrite accumulate_lsd, Z.add_0_r.
    pose proof (lsd_bounds a Ha) as Hba. pose proof (lsd_bounds b Hb) as Hbb.
    destruct b as [|d b].
    + cbn [lsd accumulate length]. change (BASE ^ Z.of_nat 1) with 256. lia.
    + pose proof (accumulate_length a (d :: b) ltac:(discriminate)) as Hlen.
      apply Z.lt_le_trans with (BASE ^ Z.of_nat (length a + length (d :: b))).
      * rewrite Nat2Z.inj_add, Z.pow_add_r by lia. nia.
      * apply BASE_pow_mono. lia.
Qed.

Lemma operator_mul_wf (a b : integer) : wf a -> wf b -> wf (operator_mul a b).
Proof.
  intros [Ha _ _] [Hb _ _]. apply integer_rep_wf, Forall_rev.
  apply mul_digits; apply Forall_rev; assumption.
Qed.

#[local] Hint Resolve operator_mul_wf : integer_wf.

Lemma operator_mul_value (a b : integer) :
  value (operator_mul a b) = value a * value b.
Proof.
  unfold operator_mul.
  rewrite integer_rep_sign_value, mag_rev, propagate_lsd, accumulate_lsd, !lsd_rev.
  unfold value. destruct (_sign a), (_sign b); cbn [xorb]; ring.
Qed.

(** ** Shifts *)

(** A shift inside a digit is by one of eight amounts; the arithmetic of
    each is closed by [lia] once the powers of two are numerals. *)
Ltac pow2_numerals :=
  repeat match goal with
    | |- context [2 ^ ?e] =>
        let v := eval compute in (2 ^ e) in change (2 ^ e) with v
    | H : context [2 ^ ?e] |- _ =>
        let v := eval compute in (2 ^ e) in change (2 ^ e) with v in H
    end.

Ltac small_shift r H :=
  let E := fresh "E" in
  assert (E : r = 0 \/ r = 1 \/ r = 2 \/ r = 3 \/ r = 4 \/ r = 5 \/ r = 6 \/ r = 7)
    by lia;
  clear H; repeat (destruct E as [E|E]; [subst r | ]); [..| subst r].

Lemma shl_digits_length (r : Z) (v : REP) : length (shl_digits r v) = length v.
Proof. induction v as [|d v IH]; cbn [shl_digits length]; congruence. Qed.

Lemma shl_step (r d : Z) :
  0 <= r < 8 ->
  d / 2 ^ (8 - r) * 256 + (d * 2 ^ r) mod 256 = d * 2 ^ r.
Proof.
  intros Hr. small_shift r Hr; pow2_numerals; Z.div_mod_to_equations; lia.
Qed.

Lemma shl_digit (r d e : Z) :
  0 <= r < 8 -> 0 <= d < 256 -> 0 <= e < 256 ->
  0 <= (d * 2 ^ r) mod 256 + e / 2 ^ (8 - r) < 256.
Proof.
  intros Hr Hd He. small_shift r Hr; pow2_numerals; Z.div_mod_to_equations; lia.
Qed.

Lemma shl_digits_mag (r : Z) (v : REP) :
  0 <= r < 8 ->
  hd 0 v / 2 ^ (BITS - r) * BASE ^ Z.of_nat (length v) + mag (shl_digits r v)
  = mag v * 2 ^ r.
Proof.
  intros Hr. induction v as [|d v IH].
  - cbn [hd shl_digits length]. rewrite mag_nil, Zdiv_0_l. lia.
  - cbn [hd shl_digits length]. rewrite !mag_cons, shl_digits_length, BASE_pow_succ.
    unbase. pose proof (shl_step r d Hr).
    set (P := 256 ^ Z.of_nat (length v)) in *. nia.
Qed.

Lemma shl_digits_digits (r : Z) (v : REP) :
  0 <= r < 8 -> Forall digit v -> Forall digit (shl_digits r v).
Proof.
  intros Hr Hv. induction Hv as [|d v Hd Hv IH]; cbn [shl_digits]; constructor.
  - unfold digit in *. unbase. apply shl_digit; try lia.
    destruct Hv as [|e v He _]; cbn [hd]; [lia | unfold digit in He; unbase; lia].
  - assumption.
Qed.

Lemma mag_zeros (q : nat) : mag (repeat 0 q) = 0.
Proof.
  induction q as [|q IH]; [reflexivity|].
  cbn [repeat]. rewrite mag_cons, IH. lia.
Qed.

Lemma pow2_split (shift : Z) :
  0 <= shift ->
  2 ^ shift = 2 ^ (shift mod BITS) * BASE ^ Z.of_nat (Z.to_nat (shift / BITS)).
Proof.
  intros H. unbase.
  assert (0 <= shift / 8) by (apply Z.div_pos; lia).
  rewrite Z2Nat.id by assumption.
  change 256 with (2 ^ 8). rewrite <- Z.pow_mul_r, <- Z.pow_add_r; try lia.
  - f_equal. pose proof (Z.div_mod shift 8). lia.
  - apply Z.mod_pos_bound. lia.
Qed.

Lemma operator_shl_mag (a : integer) (shift : Z) :
  0 <= shift ->
  mag (_value (operator_shl a shift)) = mag (_value a) * 2 ^ shift.
Proof.
  intros H. unfold operator_shl.
  destruct (Z.leb_spec shift 0) as [H0|H0].
  - replace shift with 0 by lia. simpl. lia.
  - rewrite integer_rep_mag, mag_app, repeat_length, mag_zeros, mag_cons.
    rewrite shl_digits_length.
    assert (Hr : 0 <= shift mod BITS < 8) by (apply Z.mod_pos_bound; reflexivity).
    rewrite (shl_digits_mag _ _ Hr), (pow2_split shift H). ring.
Qed.

Lemma operator_shl_wf (a : integer) (shift : Z) : wf a -> wf (operator_shl a shift).
Proof.
  intros Ha. unfold operator_shl. destruct (shift <=? 0); [assumption|].
  destruct Ha as [Hd _ _].
  assert (Hr : 0 <= shift mod BITS < 8) by (apply Z.mod_pos_bound; reflexivity).
  apply integer_rep_wf, Forall_app. split.
  - constructor; [|apply shl_digits_digits; assumption].
    pose proof (shl_digit (shift mod BITS) 0 (hd 0 (_value a)) Hr) as Hs.
    rewrite Z.mul_0_l, Zmod_0_l in Hs. unfold digit. unbase.
    apply Hs; [lia|].
    destruct Hd as [|e v He _]; cbn [hd]; [lia | unfold digit in He; unbase; lia].
  - clear. induction (Z.to_nat (shift / BITS)); cbn [repeat]; constructor;
      [unfold digit; unbase; lia | assumption].
Qed.

#[local] Hint Resolve operator_shl_wf : integer_wf.

Lemma integer_rep_nonneg (v : REP) : _sign (integer_rep v false) = false.
Proof. unfold integer_rep, trim. cbn. destruct (trim_digits v); reflexivity. Qed.

Lemma operator_shl_nonneg (a : integer) (shift : Z) :
  _sign a = false -> _sign (operator_shl a shift) = false.
Proof.
  intros Ha. unfold operator_shl. destruct (shift <=? 0); [assumption|].
  rewrite Ha. apply integer_rep_nonneg.
Qed.

Lemma shr_digits_length (r prev : Z) (v : REP) :
  length (shr_digits r prev v) = length v.
Proof.
  revert prev. induction v as [|d v IH]; intros prev; cbn [shr_digits length];
    [|rewrite IH]; reflexivity.
Qed.

Lemma shr_step (r prev d : Z) :
  0 <= r < 8 -> 0 <= d < 256 ->
  ((prev * 2 ^ (8 - r)) mod 256 + d / 2 ^ r) * 2 ^ r + d mod 2 ^ r
  = prev mod 2 ^ r * 256 + d.
Proof.
  intros Hr Hd. small_shift r Hr; pow2_numerals; Z.div_mod_to_equations; lia.
Qed.

Lemma shr_digit (r prev d : Z) :
  0 <= r < 8 -> 0 <= d < 256 ->
  0 <= (prev * 2 ^ (8 - r)) mod 256 + d / 2 ^ r < 256.
Proof.
  intros Hr Hd. small_shift r Hr; pow2_numerals; Z.div_mod_to_equations; lia.
Qed.

Lemma shr_digits_mag (r prev : Z) (v : REP) :
  0 <= r < 8 -> Forall digit v ->
  mag (shr_digits r prev v)
  = (prev mod 2 ^ r * BASE ^ Z.of_nat (length v) + mag v) / 2 ^ r.
Proof.
  intros Hr Hv. revert prev. induction Hv as [|d v Hd Hv IH]; intros prev.
  - cbn [shr_digits length]. rewrite mag_nil. symmetry.
    change (BASE ^ Z.of_nat 0) with 1. rewrite Z.mul_1_r, Z.add_0_r.
    apply Z.div_small. apply Z.mod_pos_bound. apply Z.pow_pos_nonneg; lia.
  - cbn [shr_digits length]. rewrite !mag_cons, shr_digits_length, IH, BASE_pow_succ.
    unfold digit in Hd. unbase. pose proof (shr_step r prev d Hr Hd) as Hs.
    set (P := 256 ^ Z.of_nat (length v)) in *.
    assert (H2 : 0 < 2 ^ r) by (apply Z.pow_pos_nonneg; lia).
    replace (prev mod 2 ^ r * (256 * P) + (d * P + mag v))
      with (((prev * 2 ^ (8 - r)) mod 256 + d / 2 ^ r) * P * 2 ^ r
            + (d mod 2 ^ r * P + mag v)) by nia.
    rewrite Z.div_add_l by lia. reflexivity.
Qed.

Lemma shr_digits_digits (r prev : Z) (v : REP) :
  0 <= r < 8 -> Forall digit v -> Forall digit (shr_digits r prev v).
Proof.
  intros Hr Hv. revert prev.
  induction Hv as [|d v Hd Hv IH]; intros prev; cbn [shr_digits]; constructor.
  - unfold digit in *. unbase. apply shr_digit; lia.
  - apply IH.
Qed.

Lemma Forall_prefix {A : Type} (P : A -> Prop) (n : nat) (v : list A) :
  Forall P v -> Forall P (firstn n v).
Proof.
  intros Hv. rewrite <- (firstn_skipn n v) in Hv.
  apply Forall_app in Hv. apply Hv.
Qed.

Lemma mag_drop_low (v : REP) (q : nat) :
  Forall digit v ->
  mag (firstn (length v - q) v) = mag v / BASE ^ Z.of_nat q.
Proof.
  intros Hv. pose proof (BASE_pow_pos q) as Hq.
  destruct (Nat.leb_spec q (length v)) as [Hle|Hgt].
  - assert (E : mag v = mag (firstn (length v - q) v ++ skipn (length v - q) v))
      by (rewrite firstn_skipn; reflexivity).
    rewrite E. clear E.
    assert (Hl : length (skipn (length v - q) v) = q) by (rewrite length_skipn; lia).
    rewrite mag_app, Hl.
    assert (Hs : Forall digit (skipn (length v - q) v)).
    { rewrite <- (firstn_skipn (length v - q) v) in Hv.
      apply Forall_app in Hv. apply Hv. }
    pose proof (mag_bounds _ Hs) as Hb. rewrite Hl in Hb.
    rewrite Z.div_add_l by lia. rewrite (Z.div_small (mag _)) by lia. lia.
  - replace (length v - q)%nat with 0%nat by lia. cbn [firstn]. rewrite mag_nil.
    symmetry. apply Z.div_small. pose proof (mag_bounds v Hv).
    pose proof (BASE_pow_mono (length v) q). lia.
Qed.

Lemma operator_shr_mag (a : integer) (shift : Z) :
  wf a -> 0 <= shift ->
  mag (_value (operator_shr a shift)) = mag (_value a) / 2 ^ shift.
Proof.
  intros [Hd _ _] H. unfold operator_shr.
  destruct (Z.leb_spec shift 0) as [H0|H0].
  - replace shift with 0 by lia. simpl. rewrite Z.div_1_r. reflexivity.
  - assert (Hr : 0 <= shift mod BITS < 8) by (apply Z.mod_pos_bound; reflexivity).
    rewrite integer_rep_mag, shr_digits_mag; try assumption.
    2:{ apply Forall_prefix, Hd. }
    rewrite Zmod_0_l, Z.mul_0_l, Z.add_0_l, mag_drop_low by assumption.
    rewrite (pow2_split shift H), (Z.mul_comm (2 ^ _)).
    pose proof (BASE_pow_pos (Z.to_nat (shift / BITS))).
    assert (0 < 2 ^ (shift mod BITS)) by (apply Z.pow_pos_nonneg; lia).
    rewrite Z.div_div by lia. reflexivity.
Qed.

Lemma operator_shr_wf (a : integer) (shift : Z) : wf a -> wf (operator_shr a shift).
Proof.
  intros Ha. unfold operator_shr. destruct (shift <=? 0); [assumption|].
  destruct Ha as [Hd _ _].
  assert (Hr : 0 <= shift mod BITS < 8) by (apply Z.mod_pos_bound; reflexivity).
  apply integer_rep_wf, shr_digits_digits; [assumption|].
  apply Forall_prefix, Hd.
Qed.

#[local] Hint Resolve operator_shr_wf : integer_wf.

Lemma operator_shr_nonneg (a : integer) (shift : Z) :
  _sign a = false -> _sign (operator_shr a shift) = false.
Proof.
  intros Ha. unfold operator_shr. destruct (shift <=? 0); [assumption|].
  rewrite Ha. apply integer_rep_nonneg.
Qed.

(** ** Bitwise or *)

Lemma lor_split (a b : Z) :
  Z.lor a b = Z.lor (a mod 256) (b mod 256) + 256 * Z.lor (a / 256) (b / 256).
Proof.
  rewrite (Z.div_mod (Z.lor a b) 256) at 1 by lia.
  change 256 with (2 ^ 8).
  rewrite <- !Z.land_ones, <- !Z.shiftr_div_pow2 by lia.
  rewrite Z.shiftr_lor, Z.land_lor_distr_l. ring.
Qed.

Lemma lor_cons (d e x y : Z) :
  0 <= d < 256 -> 0 <= e < 256 ->
  Z.lor (d + 256 * x) (e + 256 * y) = Z.lor d e + 256 * Z.lor x y.
Proof.
  intros Hd He. rewrite lor_split. f_equal; [f_equal | do 2 f_equal];
    Z.div_mod_to_equations; lia.
Qed.

Lemma lor_digit (d e : Z) : 0 <= d < 256 -> 0 <= e < 256 -> 0 <= Z.lor d e < 256.
Proof.
  intros Hd He. assert (H0 : 0 <= Z.lor d e) by (apply Z.lor_nonneg; lia).
  split; [assumption|].
  destruct (Z.eq_dec (Z.lor d e) 0) as [->|Hne]; [lia|].
  change 256 with (2 ^ 8). apply Z.log2_lt_pow2; [lia|].
  rewrite Z.log2_lor by lia.
  assert (Hl : forall z, 0 <= z < 256 -> Z.log2 z < 8).
  { intros z Hz. destruct (Z.eq_dec z 0) as [->|]; [reflexivity|].
    apply Z.log2_lt_pow2; [lia|]. change (2 ^ 8) with 256. lia. }
  pose proof (Hl d Hd). pose proof (Hl e He). lia.
Qed.

Lemma or_digits_lsd (a b : REP) :
  Forall digit a -> Forall digit b ->
  lsd (or_digits a b) = Z.lor (lsd a) (lsd b).
Proof.
  intros Ha. revert b. induction Ha as [|x a Hx Ha IH]; intros b Hb.
  - destruct b; cbn [or_digits lsd]; [reflexivity|]. rewrite Z.lor_0_l. reflexivity.
  - destruct Hb as [|y b Hy Hb]; cbn [or_digits lsd].
    + rewrite Z.lor_0_r. reflexivity.
    + rewrite IH by assumption. unfold digit in Hx, Hy. unbase.
      symmetry. apply lor_cons; assumption.
Qed.

Lemma or_digits_digits (a b : REP) :
  Forall digit a -> Forall digit b -> Forall digit (or_digits a b).
Proof.
  intros Ha. revert b. induction Ha as [|x a Hx Ha IH]; intros b Hb.
  - destruct b; assumption.
  - destruct Hb as [|y b Hy Hb]; cbn [or_digits].
    + constructor; assumption.
    + constructor; [|apply IH, Hb]. unfold digit in *. unbase.
      apply lor_digit; assumption.
Qed.

Lemma operator_or_mag (a b : integer) :
  wf a -> wf b ->
  mag (_value (operator_or a b)) = Z.lor (mag (_value a)) (mag (_value b)).
Proof.
  intros [Ha _ _] [Hb _ _]. unfold operator_or.
  rewrite integer_rep_mag, mag_rev, or_digits_lsd, !lsd_rev;
    try apply Forall_rev; trivial.
Qed.

Lemma operator_or_wf (a b : integer) : wf a -> wf b -> wf (operator_or a b).
Proof.
  intros [Ha _ _] [Hb _ _]. apply integer_rep_wf, Forall_rev.
  apply or_digits_digits; apply Forall_rev; assumption.
Qed.

#[local] Hint Resolve operator_or_wf : integer_wf.

Lemma operator_or_nonneg (a b : integer) :
  _sign a = false -> _sign (operator_or a b) = false.
Proof. intros Ha. unfold operator_or. rewrite Ha. apply integer_rep_nonneg. Qed.

(** ** Bit length *)

Lemma bits_nonneg (x : integer) : 0 <= bits x.
Proof.
  unfold bits, leading_zeros. destruct (_value x) as [|d v]; [lia|]. unbase.
  destruct (d =? 0); [lia|]. pose proof (Z.log2_nonneg d). lia.
Qed.

Lemma bits_upper (x : integer) : wf x -> mag (_value x) < 2 ^ bits x.
Proof.
  intros [Hd Ht _]. unfold bits, leading_zeros.
  destruct (_value x) as [|d v]; [rewrite mag_nil; reflexivity|].
  cbn [hd] in Ht. apply Z.eqb_neq in Ht. rewrite Ht.
  apply Z.eqb_neq in Ht. inversion Hd as [|? ? Hd0 Hv]; subst.
  rewrite mag_cons. pose proof (mag_bounds v Hv) as Hb.
  unfold digit in Hd0. unbase.
  replace (8 - (8 - 1 - Z.log2 d)) with (Z.succ (Z.log2 d)) by lia.
  pose proof (Z.log2_spec d ltac:(lia)) as Hl. pose proof (Z.log2_nonneg d).
  assert (E : 2 ^ (Z.of_nat (length v) * 8 + Z.succ (Z.log2 d))
              = 256 ^ Z.of_nat (length v) * 2 ^ Z.succ (Z.log2 d)).
  { rewrite Z.pow_add_r, (Z.mul_comm _ 8), Z.pow_mul_r by lia. reflexivity. }
  rewrite E. set (P := 256 ^ Z.of_nat (length v)) in *. nia.
Qed.

(** ** Signed comparison, truth value, absolute value *)

Lemma wf_negative_pos (x : integer) : wf x -> _sign x = true -> 0 < mag (_value x).
Proof.
  intros [Hd Ht Hz] Hs. destruct (_value x) as [|d v] eqn:E.
  - specialize (Hz eq_refl). congruence.
  - cbn [hd] in Ht. pose proof (mag_lower d v Hd Ht).
    pose proof (BASE_pow_pos (length v)). lia.
Qed.

Lemma operator_gt_spec (a b : integer) :
  wf a -> wf b -> operator_gt a b = (value b <? value a).
Proof.
  intros Ha Hb. unfold operator_gt, value.
  pose proof (wf_mag_nonneg a Ha). pose proof (wf_mag_nonneg b Hb).
  destruct (_sign a) eqn:Ea, (_sign b) eqn:Eb.
  - rewrite gt_spec by assumption.
    destruct (Z.ltb_spec (mag (_value a)) (mag (_value b))),
      (Z.ltb_spec (- mag (_value b)) (- mag (_value a))); try reflexivity; lia.
  - pose proof (wf_negative_pos a Ha Ea). symmetry. apply Z.ltb_ge. lia.
  - pose proof (wf_negative_pos b Hb Eb). symmetry. apply Z.ltb_lt. lia.
  - apply gt_spec; assumption.
Qed.

Lemma operator_le_spec (a b : integer) :
  wf a -> wf b -> operator_le a b = (value a <=? value b).
Proof.
  intros Ha Hb. unfold operator_le. rewrite operator_gt_spec by assumption.
  destruct (Z.ltb_spec (value b) (value a)), (Z.leb_spec (value a) (value b));
    try reflexivity; lia.
Qed.

Lemma all_zero_mag (v : REP) :
  Forall digit v -> forallb (fun d => d =? 0) v = (mag v =? 0).
Proof.
  induction 1 as [|d v Hd Hv IH]; [reflexivity|].
  cbn [forallb]. rewrite IH, mag_cons. pose proof (mag_bounds v Hv).
  pose proof (BASE_pow_pos (length v)). unfold digit in Hd.
  destruct (Z.eqb_spec d 0) as [->|]; cbn [andb].
  - f_equal; lia.
  - symmetry. apply Z.eqb_neq. nia.
Qed.

Lemma operator_bool_spec (x : integer) :
  wf x -> operator_bool x = negb (value x =? 0).
Proof.
  intros [Hd _ _]. unfold operator_bool, value. rewrite all_zero_mag by assumption.
  f_equal. destruct (_sign x); [|reflexivity].
  destruct (Z.eqb_spec (mag (_value x)) 0), (Z.eqb_spec (- mag (_value x)) 0);
    try reflexivity; lia.
Qed.

Lemma abs_wf (x : integer) : wf x -> wf (abs x).
Proof. apply wf_integer_rep_value. Qed.

#[local] Hint Resolve abs_wf : integer_wf.

Lemma abs_value (x : integer) : value (abs x) = mag (_value x).
Proof. unfold abs. apply integer_rep_sign_value. Qed.

Lemma abs_nonneg (x : integer) : _sign (abs x) = false.
Proof. apply integer_rep_nonneg. Qed.

Lemma value_nonneg (x : integer) : _sign x = false -> value x = mag (_value x).
Proof. unfold value. intros ->. reflexivity. Qed.

Lemma wf_mag_abs (x : integer) : wf x -> mag (_value x) = Z.abs (value x).
Proof.
  intros Hx. pose proof (wf_mag_nonneg x Hx). unfold value.
  destruct (_sign x); lia.
Qed.

(** ** Division *)

Lemma wf_nonneg_sign (x : integer) : wf x -> 0 <= value x -> _sign x = false.
Proof.
  intros Hx Hv. destruct (_sign x) eqn:E; [|reflexivity].
  pose proof (wf_negative_pos x Hx E). unfold value in Hv. rewrite E in Hv. lia.
Qed.

Lemma lor_disjoint_bit (m i : Z) :
  0 <= i -> Z.lor (m * 2 ^ Z.succ i) (2 ^ i) = m * 2 ^ Z.succ i + 2 ^ i.
Proof.
  intros Hi. rewrite <- Z.add_lor_land.
  assert (E : Z.land (m * 2 ^ Z.succ i) (2 ^ i) = 0).
  { apply Z.bits_inj'. intros n Hn. rewrite Z.land_spec, Z.bits_0.
    rewrite Z.pow2_bits_eqb by assumption.
    destruct (Z.eqb_spec i n) as [<-|]; [|apply andb_false_r].
    rewrite Z.mul_pow2_bits_low by lia. reflexivity. }
  rewrite E. lia.
Qed.

Lemma integer_one : integer_of int32_t 1 = {| _sign := false; _value := [1] |}.
Proof. reflexivity. Qed.

Lemma integer_nought : integer_of int32_t 0 = integer_zero.
Proof. reflexivity. Qed.

Lemma integer_one_wf : wf (integer_of int32_t 1).
Proof.
  rewrite integer_one. constructor; cbn; [|lia|discriminate].
  constructor; [unfold digit; unbase; lia | constructor].
Qed.

#[local] Hint Resolve integer_one_wf : integer_wf.

(** The invariant of the rounds: with [i] rounds to go, [copyd] is the
    divisor times [2^(i-1)], [adder] is [2^(i-1)], the rest [copyn] is below
    the divisor times [2^i], and the quotient so far is a multiple of
    [2^i]. *)
Lemma divmod_rounds_spec (D : Z) (i : nat) :
  0 < D ->
  forall copyd adder copyn q : integer,
  wf copyd -> wf adder -> wf copyn -> wf q ->
  _sign copyd = false -> _sign adder = false -> _sign q = false ->
  (i <> O -> value copyd = D * 2 ^ (Z.of_nat i - 1)
             /\ value adder = 2 ^ (Z.of_nat i - 1)) ->
  0 <= value copyn < D * 2 ^ Z.of_nat i ->
  (exists m, value q = m * 2 ^ Z.of_nat i) ->
  let qr := divmod_rounds i copyd adder copyn q in
  wf (fst qr) /\ wf (snd qr) /\ 0 <= value (fst qr) /\
  value (fst qr) * D + value (snd qr) = value q * D + value copyn /\
  0 <= value (snd qr) < D.
Proof.
  intros HD. induction i as [|i IH];
    intros copyd adder copyn q Wd Wa Wn Wq Sd Sa Sq Hshape Hn Hq.
  - cbn [divmod_rounds fst snd]. change (2 ^ Z.of_nat 0) with 1 in *.
    refine (conj Wq (conj Wn (conj _ (conj eq_refl _)))); [|lia].
    rewrite (value_nonneg q Sq). apply wf_mag_nonneg, Wq.
  - destruct (Hshape ltac:(discriminate)) as [Hd Ha].
    replace (Z.of_nat (S i) - 1) with (Z.of_nat i) in Hd, Ha by lia.
    rewrite Nat2Z.inj_succ in Hn, Hq.
    rewrite Z.pow_succ_r in Hn by lia.
    destruct Hq as [m Hq].
    assert (HP : 0 < 2 ^ Z.of_nat i) by (apply Z.pow_pos_nonneg; lia).
    cbn [divmod_rounds]. cbv zeta.
    rewrite operator_le_spec by assumption.
    (* the operands of the next round *)
    assert (Wd' : wf (operator_shr copyd 1)) by auto with integer_wf.
    assert (Wa' : wf (operator_shr adder 1)) by auto with integer_wf.
    assert (Sd' : _sign (operator_shr copyd 1) = false)
      by (apply operator_shr_nonneg, Sd).
    assert (Sa' : _sign (operator_shr adder 1) = false)
      by (apply operator_shr_nonneg, Sa).
    assert (Hshape' : i <> O ->
              value (operator_shr copyd 1) = D * 2 ^ (Z.of_nat i - 1)
              /\ value (operator_shr adder 1) = 2 ^ (Z.of_nat i - 1)).
    { intros Hi. rewrite !value_nonneg by assumption.
      rewrite !operator_shr_mag by (assumption || lia).
      rewrite <- !value_nonneg by assumption. rewrite Hd, Ha.
      replace (Z.of_nat i) with (Z.succ (Z.of_nat i - 1)) at 1 3 by lia.
      rewrite Z.pow_succ_r by lia. change (2 ^ 1) with 2.
      split.
      - replace (D * (2 * 2 ^ (Z.of_nat i - 1)))
          with (D * 2 ^ (Z.of_nat i - 1) * 2) by ring.
        apply Z.div_mul. lia.
      - rewrite Z.mul_comm. apply Z.div_mul. lia. }
    destruct (Z.leb_spec (value copyd) (value copyn)) as [Hle|Hgt].
    + (* the divisor fits: subtract it and set the bit *)
      assert (Wn' : wf (operator_minus copyn copyd)) by auto with integer_wf.
      assert (Wq' : wf (operator_or q adder)) by auto with integer_wf.
      assert (Sq' : _sign (operator_or q adder) = false)
        by (apply operator_or_nonneg, Sq).
      assert (Vq' : value (operator_or q adder) = value q + 2 ^ Z.of_nat i).
      { rewrite value_nonneg by assumption.
        rewrite operator_or_mag by assumption.
        rewrite <- !value_nonneg by assumption. rewrite Hq, Ha.
        apply lor_disjoint_bit. lia. }
      specialize (IH (operator_shr copyd 1) (operator_shr adder 1)
                    (operator_minus copyn copyd) (operator_or q adder)
                    Wd' Wa' Wn' Wq' Sd' Sa' Sq' Hshape').
      rewrite operator_minus_value, Vq' in IH by assumption.
      destruct IH as (W1 & W2 & Q0 & E & R); [lia | |].
      { exists (2 * m + 1). rewrite Hq, Z.pow_succ_r by lia. ring. }
      cbv zeta in W1, W2, Q0, E, R.
      refine (conj W1 (conj W2 (conj Q0 (conj _ R)))).
      rewrite E, Hd. ring.
    + (* it does not fit *)
      specialize (IH (operator_shr copyd 1) (operator_shr adder 1) copyn q
                    Wd' Wa' Wn Wq Sd' Sa' Sq Hshape').
      destruct IH as (W1 & W2 & Q0 & E & R); [lia | |].
      { exists (2 * m). rewrite Hq, Z.pow_succ_r by lia. ring. }
      cbv zeta in W1, W2, Q0, E, R.
      exact (conj W1 (conj W2 (conj Q0 (conj E R)))).
Qed.

Lemma non_recursive_divmod_spec (lhs rhs : integer) :
  wf lhs -> wf rhs -> _sign lhs = false -> _sign rhs = false ->
  0 < value rhs ->
  let qr := non_recursive_divmod lhs rhs in
  wf (fst qr) /\ wf (snd qr) /\
  value (fst qr) = value lhs / value rhs /\
  value (snd qr) = value lhs mod value rhs.
Proof.
  intros Wl Wr Sl Sr Hpos. unfold non_recursive_divmod.
  pose proof (bits_nonneg lhs) as Hn. pose proof (bits_upper lhs Wl) as Hu.
  pose proof (wf_mag_nonneg lhs Wl) as Hl.
  rewrite <- value_nonneg in Hu, Hl by assumption.
  assert (HP : 0 < 2 ^ bits lhs) by (apply Z.pow_pos_nonneg; lia).
  destruct (divmod_rounds_spec (value rhs) (Z.to_nat (bits lhs)) Hpos
              (operator_shl rhs (bits lhs - 1))
              (operator_shl (integer_of int32_t 1) (bits lhs - 1))
              lhs (integer_of int32_t 0))
    as (W1 & W2 & Q0 & E & R).
  - apply operator_shl_wf, Wr.
  - apply operator_shl_wf, integer_one_wf.
  - assumption.
  - rewrite integer_nought. apply integer_zero_wf.
  - apply operator_shl_nonneg, Sr.
  - apply operator_shl_nonneg. reflexivity.
  - reflexivity.
  - intros Hi. rewrite Z2Nat.id by assumption.
    assert (0 <= bits lhs - 1) by lia.
    split.
    + rewrite value_nonneg by (apply operator_shl_nonneg, Sr).
      rewrite operator_shl_mag by assumption.
      rewrite <- value_nonneg by assumption. reflexivity.
    + rewrite value_nonneg by (apply operator_shl_nonneg; reflexivity).
      rewrite operator_shl_mag by assumption.
      rewrite integer_one. cbn [_value]. change (mag [1]) with 1. lia.
  - rewrite Z2Nat.id by assumption. nia.
  - exists 0. reflexivity.
  - cbv zeta in *. change (value (integer_of int32_t 0)) with 0 in E.
    set (qr := divmod_rounds _ _ _ _ _) in *.
    refine (conj W1 (conj W2 (conj _ _))).
    + apply Z.div_unique_pos with (value (snd qr)); lia.
    + apply Z.mod_unique_pos with (value (fst qr)); lia.
Qed.

Lemma dm_abs (a b : integer) :
  wf a -> wf b -> value b <> 0 ->
  exists q r, dm (abs a) (abs b) = Returns (q, r) /\ wf q /\ wf r /\
    value q = Z.abs (value a) / Z.abs (value b) /\
    value r = Z.abs (value a) mod Z.abs (value b).
Proof.
  intros Wa Wb Hb. unfold dm.
  rewrite operator_bool_spec by (apply abs_wf, Wb).
  rewrite abs_value, (wf_mag_abs b Wb).
  destruct (Z.eqb_spec (Z.abs (value b)) 0) as [E|_]; [lia|]. cbn [negb].
  destruct (non_recursive_divmod_spec (abs a) (abs b) (abs_wf a Wa)
              (abs_wf b Wb) (abs_nonneg a) (abs_nonneg b))
    as (W1 & W2 & Q & R).
  { rewrite abs_value, (wf_mag_abs b Wb). lia. }
  cbv zeta in *. rewrite !abs_value, (wf_mag_abs a Wa), (wf_mag_abs b Wb) in Q, R.
  destruct (non_recursive_divmod (abs a) (abs b)) as [q r]. cbn [fst snd] in *.
  exists q, r. exact (conj eq_refl (conj W1 (conj W2 (conj Q R)))).
Qed.

Lemma is_wf_wf (x : integer) : is_wf x = true -> wf x.
Proof.
  unfold is_wf. intros H.
  apply andb_prop in H as [H H3]. apply andb_prop in H as [H1 H2].
  constructor.
  - apply Forall_forall. intros d Hd.
    rewrite forallb_forall in H1. specialize (H1 d Hd).
    unfold digit. lia.
  - apply negb_true_iff, Z.eqb_neq in H2. assumption.
  - intros E. rewrite E in H3. apply negb_true_iff in H3. assumption.
Qed.

Lemma quot_signs (sa sb : bool) (A B : Z) :
  0 <= A -> 0 < B ->
  Z.quot (if sa then - A else A) (if sb then - B else B)
  = if xorb sa sb then - (A / B) else A / B.
Proof.
  intros HA HB. destruct sa, sb; cbn [xorb];
    rewrite ?Z.quot_opp_l, ?Z.quot_opp_r, ?Z.quot_div_nonneg by lia; lia.
Qed.

Lemma rem_signs (sa sb : bool) (A B : Z) :
  0 <= A -> 0 < B ->
  Z.rem (if sa then - A else A) (if sb then - B else B)
  = if sa then - (A mod B) else A mod B.
Proof.
  intros HA HB. destruct sa, sb;
    rewrite ?Z.rem_opp_l, ?Z.rem_opp_r, ?Z.rem_mod_nonneg by lia; lia.
Qed.

Lemma operator_div_spec (a b : integer) :
  wf a -> wf b -> value b <> 0 ->
  exists q, operator_div a b = Returns q /\ wf q /\
    value q = Z.quot (value a) (value b) /\
    value q = (if xorb (_sign a) (_sign b)
               then - (Z.abs (value a) / Z.abs (value b))
               else Z.abs (value a) / Z.abs (value b)) /\
    (value q <> 0 -> _sign q = xorb (_sign a) (_sign b)).
Proof.
  intros Wa Wb Hb. destruct (dm_abs a b Wa Wb Hb) as (q & r & E & Wq & Wr & Q & R).
  unfold operator_div. rewrite E. cbn [bind fst].
  eexists. split; [reflexivity|].
  assert (HB : 0 < Z.abs (value b)) by lia. pose proof (Z.abs_nonneg (value a)) as HA.
  assert (Hq : 0 <= value q) by (rewrite Q; apply Z.div_pos; lia).
  assert (Mq : mag (_value q) = value q) by (rewrite (wf_mag_abs q Wq); lia).
  assert (V : value (integer_rep (_value q) (xorb (_sign a) (_sign b)))
              = if xorb (_sign a) (_sign b)
                then - (Z.abs (value a) / Z.abs (value b))
                else Z.abs (value a) / Z.abs (value b)).
  { rewrite integer_rep_sign_value, Mq, Q. reflexivity. }
  refine (conj (wf_integer_rep_value q _ Wq) (conj _ (conj V _))).
  - rewrite V, <- (quot_signs _ _ _ _ HA HB).
    rewrite <- (wf_mag_abs a Wa), <- (wf_mag_abs b Wb). reflexivity.
  - intros Hne. apply integer_rep_sign. rewrite Mq, Q.
    rewrite V in Hne. destruct (xorb (_sign a) (_sign b)); lia.
Qed.

Lemma operator_mod_spec (a b : integer) :
  wf a -> wf b -> value b <> 0 ->
  exists r, operator_mod a b = Returns r /\ wf r /\
    value r = Z.rem (value a) (value b) /\
    (value r <> 0 -> _sign r = _sign a).
Proof.
  intros Wa Wb Hb. destruct (dm_abs a b Wa Wb Hb) as (q & r & E & Wq & Wr & Q & R).
  unfold operator_mod. rewrite E. cbn [bind snd].
  eexists. split; [reflexivity|].
  assert (HB : 0 < Z.abs (value b)) by lia. pose proof (Z.abs_nonneg (value a)) as HA.
  assert (Hr : 0 <= value r) by (rewrite R; apply Z.mod_pos_bound; lia).
  assert (Mr : mag (_value r) = value r) by (rewrite (wf_mag_abs r Wr); lia).
  assert (V : value (integer_rep (_value r) (_sign a))
              = if _sign a then - (Z.abs (value a) mod Z.abs (value b))
                else Z.abs (value a) mod Z.abs (value b)).
  { rewrite integer_rep_sign_value, Mr, R. reflexivity. }
  refine (conj (wf_integer_rep_value r _ Wr) (conj _ _)).
  - rewrite V, <- (rem_signs _ (_sign b) _ _ HA HB).
    rewrite <- (wf_mag_abs a Wa), <- (wf_mag_abs b Wb). reflexivity.
  - intros Hne. apply integer_rep_sign. rewrite Mr, R.
    rewrite V in Hne. destruct (_sign a); lia.
Qed.

(** C1.  For every integer [a] and every non-zero integer [b] the quotient
    [a / b] and the remainder [a % b] are produced and satisfy
    [a = (a / b) * b + (a % b)] with [|a % b| < |b|]; a non-zero remainder
    has the sign of the dividend [a]; the quotient is the quotient of the
    magnitudes with the xor of the operand signs, that is, division
    truncates as in C.  (The division operators are modelled from the
    specification's description of the shift divmod.) *)
Theorem divmod_identity (a b : integer) :
  wf a -> wf b -> value b <> 0 ->
  exists q r,
    operator_div a b = Returns q /\ operator_mod a b = Returns r /\
    value a = value q * value b + value r /\
    Z.abs (value r) < Z.abs (value b) /\
    (value r <> 0 -> _sign r = _sign a) /\
    value q = (if xorb (_sign a) (_sign b)
               then - (Z.abs (value a) / Z.abs (value b))
               else Z.abs (value a) / Z.abs (value b)) /\
    (value q <> 0 -> _sign q = xorb (_sign a) (_sign b)) /\
    value q = Z.quot (value a) (value b) /\
    value r = Z.rem (value a) (value b).
Proof.
  intros Wa Wb Hb.
  destruct (operator_div_spec a b Wa Wb Hb) as (q & Eq & _ & Q & Qs & Qf).
  destruct (operator_mod_spec a b Wa Wb Hb) as (r & Er & _ & R & Rf).
  exists q, r.
  refine (conj Eq (conj Er (conj _ (conj _ (conj Rf (conj Qs (conj Qf (conj Q R)))))))).
  - rewrite Q, R, Z.mul_comm. apply Z.quot_rem'.
  - rewrite R. apply Z.rem_bound_abs. assumption.
Qed.

Lemma divmod_identity_witness :
  let a := {| _sign := true; _value := [7] |} in
  let b := {| _sign := false; _value := [2] |} in
  wf a /\ wf b /\ value b <> 0 /\
  exists q r,
    operator_div a b = Returns q /\ operator_mod a b = Returns r /\
    value a = value q * value b + value r /\
    Z.abs (value r) < Z.abs (value b) /\
    (value r <> 0 -> _sign r = _sign a) /\
    value q = (if xorb (_sign a) (_sign b)
               then - (Z.abs (value a) / Z.abs (value b))
               else Z.abs (value a) / Z.abs (value b)) /\
    (value q <> 0 -> _sign q = xorb (_sign a) (_sign b)) /\
    value q = Z.quot (value a) (value b) /\
    value r = Z.rem (value a) (value b).
Proof.
  intros a b.
  assert (Wa : wf a) by (apply is_wf_wf; reflexivity).
  assert (Wb : wf b) by (apply is_wf_wf; reflexivity).
  assert (Hb : value b <> 0) by (vm_compute; discriminate).
  exact (conj Wa (conj Wb (conj Hb (divmod_identity a b Wa Wb Hb)))).
Defined.

(** ** The scenarios of the specification *)

(** The arithmetic modelled from the specification gives the results the
    specification tabulates: 123456789 + 987654321, 0xffffffffffffffff + 1,
    -7 / 2 and -7 % 2, 1000000 * 1000000, and 1 << 128. *)
Example specification_scenarios :
  value (operator_plus (integer_of int32_t 123456789)
           (integer_of int32_t 987654321)) = 1111111110 /\
  value (operator_plus (integer_of uint64_t 18446744073709551615)
           (integer_of int32_t 1)) = 2 ^ 64 /\
  operator_div (integer_of int32_t (-7)) (integer_of int32_t 2)
    = Returns (integer_of int32_t (-3)) /\
  operator_mod (integer_of int32_t (-7)) (integer_of int32_t 2)
    = Returns (integer_of int32_t (-1)) /\
  value (operator_mul (integer_of int32_t 1000000)
           (integer_of int32_t 1000000)) = 1000000000000 /\
  value (operator_shl (integer_of int32_t 1) 128) = 2 ^ 128.
Proof. repeat split; vm_compute; reflexivity. Qed.

(** ** Construction from a native integer *)

(** Case analysis over the eight native types. *)
Ltac each_native H :=
  unfold native_types in H; cbn [In] in H;
  repeat (destruct H as [H|H]; [subst | ]); [..| contradiction].

Lemma low_digit (val : Z) : Z.land val NEG1 = val mod 256.
Proof. change NEG1 with (Z.ones 8). rewrite Z.land_ones by lia. reflexivity. Qed.

Lemma high_digits (val : Z) : Z.shiftr val BITS = val / 256.
Proof. unbase. rewrite Z.shiftr_div_pow2 by lia. reflexivity. Qed.

Section Native.

(** One of the native types, fixed for the section. *)
Variable t : ctype.
Hypothesis native : In t native_types.

Lemma wrap_in_range (z : Z) : in_range t z -> wrap t z = z.
Proof.
  pose proof native as Ht. revert Ht z. generalize t. intros t0 Ht z.
  unfold in_range, min_value, max_value, wrap.
  each_native Ht;
    cbv [is_signed width uint8_t uint16_t uint32_t uint64_t
         int8_t int16_t int32_t int64_t];
    intros Hz;
    repeat match goal with
    | H : context [2 ^ ?e] |- _ =>
        let v := eval compute in (2 ^ e) in change (2 ^ e) with v in H
    | |- context [2 ^ ?e] =>
        let v := eval compute in (2 ^ e) in change (2 ^ e) with v
    end;
    rewrite Z.mod_small by lia; lia.
Qed.

Lemma max_value_bound :
  0 < max_value t < BASE ^ Z.of_nat (Z.to_nat (width t / BITS)).
Proof.
  pose proof native as Ht. revert Ht. generalize t. intros t0 Ht.
  each_native Ht; vm_compute; split; reflexivity.
Qed.

Lemma min_value_bound :
  min_value t = if is_signed t then - max_value t - 1 else 0.
Proof.
  pose proof native as Ht. revert Ht. generalize t. intros t0 Ht.
  each_native Ht; reflexivity.
Qed.

Lemma min_value_negated :
  is_signed t = true -> wrap t (- min_value t) = min_value t.
Proof.
  pose proof native as Ht. revert Ht. generalize t. intros t0 Ht.
  each_native Ht; intros Hs; try discriminate Hs; reflexivity.
Qed.

Lemma in_range_nonneg (z : Z) : 0 <= z <= max_value t -> in_range t z.
Proof.
  intros Hz. unfold in_range. rewrite min_value_bound.
  destruct (is_signed t); lia.
Qed.

(** On a value that is not negative the loop peels off the digits and stops
    after one round per digit. *)
Lemma setFromZ_loop_returns (n : nat) :
  forall (fuel : nat) (val : Z) (v : REP),
  (n < fuel)%nat -> 0 <= val <= max_value t -> val < BASE ^ Z.of_nat n ->
  exists ds, setFromZ_loop t fuel val v = Returns (ds ++ v) /\
             mag ds = val /\ Forall digit ds.
Proof.
  induction n as [|n IH]; intros fuel val v Hf Hv Hn;
    (destruct fuel as [|fuel]; [lia|]); cbn [setFromZ_loop].
  - change (BASE ^ Z.of_nat 0) with 1 in Hn. replace val with 0 by lia.
    exists []. repeat split. constructor.
  - destruct (Z.eqb_spec val 0) as [->|Hne].
    + exists []. repeat split. constructor.
    + rewrite high_digits, low_digit. rewrite BASE_pow_succ in Hn. unbase.
      assert (Hq : 0 <= val / 256 <= max_value t /\
                   val / 256 < 256 ^ Z.of_nat n).
      { Z.div_mod_to_equations. lia. }
      rewrite wrap_in_range by (apply in_range_nonneg; lia).
      destruct (IH fuel (val / 256) (val mod 256 :: v)) as (ds & E & M & D);
        try lia.
      exists (ds ++ [val mod 256]). rewrite <- app_assoc. split; [exact E|].
      split.
      * rewrite mag_snoc, M. unbase. Z.div_mod_to_equations. lia.
      * apply Forall_app. split; [assumption|]. constructor; [|constructor].
        unfold digit. unbase. apply Z.mod_pos_bound. lia.
Qed.

(** On a negative value the loop never stops: an arithmetic shift keeps a
    negative value negative. *)
Lemma setFromZ_loop_negative (fuel : nat) :
  forall (val : Z) (v : REP),
  min_value t <= val < 0 -> setFromZ_loop t fuel val v = OutOfFuel.
Proof.
  induction fuel as [|fuel IH]; intros val v Hv; [reflexivity|].
  cbn [setFromZ_loop]. destruct (Z.eqb_spec val 0) as [->|_]; [lia|].
  rewrite high_digits.
  assert (Hq : min_value t <= val / 256 < 0) by (Z.div_mod_to_equations; lia).
  rewrite wrap_in_range; [apply IH; assumption|].
  unfold in_range. pose proof max_value_bound. lia.
Qed.

(** Every value but the most negative one of a signed type is constructed,
    with its sign and its magnitude. *)
Lemma setFromZ_returns (fuel : nat) (val : Z) :
  in_range t val ->
  (is_signed t = true -> val <> min_value t) ->
  (rounds t <= fuel)%nat ->
  exists x, setFromZ t fuel val = Returns x /\ wf x /\ value x = val /\
            _sign x = (val <? 0).
Proof.
  intros Hr Hmin Hf. unfold setFromZ, rounds in *.
  pose proof max_value_bound as Hmax.
  pose proof min_value_bound as Hm. unfold in_range in Hr.
  destruct (Z.ltb_spec val 0) as [Hneg|Hpos].
  - assert (Hs : is_signed t = true).
    { destruct (is_signed t); [reflexivity | lia]. }
    specialize (Hmin Hs). rewrite Hs in Hm.
    rewrite wrap_in_range by (unfold in_range; lia).
    destruct (setFromZ_loop_returns (Z.to_nat (width t / BITS)) fuel (- val) [])
      as (ds & E & M & D); try lia.
    rewrite E, app_nil_r. cbn [bind]. eexists. split; [reflexivity|].
    change (trim {| _sign := true; _value := ds |}) with (integer_rep ds true).
    split; [apply integer_rep_wf, D|].
    split; [rewrite integer_rep_sign_value; lia | apply integer_rep_sign; lia].
  - destruct (setFromZ_loop_returns (Z.to_nat (width t / BITS)) fuel val [])
      as (ds & E & M & D); try lia.
    rewrite E, app_nil_r. cbn [bind]. eexists. split; [reflexivity|].
    change (trim {| _sign := false; _value := ds |}) with (integer_rep ds false).
    split; [apply integer_rep_wf, D|].
    split; [rewrite integer_rep_sign_value; lia | apply integer_rep_nonneg].
Qed.

(** The most negative value of a signed type is its own negation; the loop
    then shifts a negative value for ever. *)
Lemma setFromZ_most_negative (fuel : nat) :
  is_signed t = true -> setFromZ t fuel (min_value t) = OutOfFuel.
Proof.
  intros Hs. unfold setFromZ.
  pose proof max_value_bound as Hmax.
  pose proof min_value_bound as Hm. rewrite Hs in Hm.
  destruct (Z.ltb_spec (min_value t) 0); [|lia].
  rewrite (min_value_negated Hs), setFromZ_loop_negative; trivial. lia.
Qed.

Lemma integer_of_spec (val : Z) :
  0 <= val <= max_value t ->
  wf (integer_of t val) /\ value (integer_of t val) = val /\
  _sign (integer_of t val) = false.
Proof.
  intros Hv. unfold integer_of.
  destruct (setFromZ_returns (rounds t) val) as (x & E & W & V & S).
  - apply in_range_nonneg, Hv.
  - intros Hs. rewrite min_value_bound, Hs. lia.
  - lia.
  - rewrite E. destruct (Z.ltb_spec val 0); [lia|]. auto.
Qed.

End Native.

(** C4.  Constructing from the most negative value of a signed type does
    not terminate: [val = -val] leaves the value negative, and the loop
    [while (val)] then shifts a negative value, which never becomes zero.
    No number of rounds makes [setFromZ] return. *)
Theorem setFromZ_minimum_never_returns (fuel : nat) :
  setFromZ int8_t fuel (-128) = OutOfFuel /\
  setFromZ int16_t fuel (-32768) = OutOfFuel /\
  setFromZ int32_t fuel (-2147483648) = OutOfFuel /\
  setFromZ int64_t fuel (-9223372036854775808) = OutOfFuel.
Proof.
  repeat split.
  - apply (setFromZ_most_negative int8_t); [cbn; tauto | reflexivity].
  - apply (setFromZ_most_negative int16_t); [cbn; tauto | reflexivity].
  - apply (setFromZ_most_negative int32_t); [cbn; tauto | reflexivity].
  - apply (setFromZ_most_negative int64_t); [cbn; tauto | reflexivity].
Qed.

(** ** The iterator constructor *)

Lemma code_range (c : ascii) : 0 <= code c < 256.
Proof. unfold code. pose proof (N_ascii_bounded c). lia. Qed.

Lemma between_range (lo hi c : ascii) :
  between lo hi c = true -> code lo <= code c <= code hi.
Proof. unfold between. lia. Qed.

Lemma int32_native : In int32_t native_types.
Proof. cbn. tauto. Qed.

Lemma uint16_native : In uint16_t native_types.
Proof. cbn. tauto. Qed.

Lemma small_literal (z : Z) :
  0 <= z <= 255 ->
  wf (integer_of int32_t z) /\ value (integer_of int32_t z) = z.
Proof.
  intros Hz. destruct (integer_of_spec int32_t int32_native z) as (W & V & _).
  - change (max_value int32_t) with 2147483647. lia.
  - split; assumption.
Qed.

Lemma base_literal (base : Z) :
  0 <= base <= 65535 ->
  wf (integer_of uint16_t base) /\ value (integer_of uint16_t base) = base.
Proof.
  intros Hz. destruct (integer_of_spec uint16_t uint16_native base) as (W & V & _).
  - change (max_value uint16_t) with 65535. lia.
  - split; assumption.
Qed.

(** What the decimal branch computes: every character multiplies the value
    accumulated so far by [base + 1], not by [base]. *)
Lemma parse_decimal_spec (base : Z) (input : list ascii) :
  0 <= base <= 65535 ->
  forall this x, wf this -> 0 <= value this ->
  parse_decimal base input this = Returns x ->
  wf x /\ 0 <= value x /\
  value x = fold_left (fun v c => v + (v * base + (code c - code "0")))
              input (value this).
Proof.
  intros Hb. induction input as [|c rest IH]; intros this x W N E.
  - cbn [parse_decimal] in E. injection E as <-. auto.
  - cbn [parse_decimal] in E. destruct (isdigit c) eqn:Ec; [|discriminate].
    cbn [negb] in E. apply between_range in Ec.
    change (code "0") with 48 in *. change (code "9") with 57 in Ec.
    destruct (small_literal (code c - 48)) as [Wd Vd]; [lia|].
    destruct (base_literal base Hb) as [Wb Vb].
    assert (V : value (operator_plus this
                  (operator_plus (operator_mul this (integer_of uint16_t base))
                     (integer_of int32_t (code c - 48))))
                = value this + (value this * base + (code c - 48))).
    { rewrite !operator_plus_value, operator_mul_value, Vb, Vd;
        auto with integer_wf. }
    apply IH in E; [| auto with integer_wf | rewrite V; nia].
    cbn [fold_left]. rewrite V in E. exact E.
Qed.

(** A range of decimal digits is never rejected. *)
Lemma parse_decimal_returns (base : Z) (input : list ascii) :
  forallb isdigit input = true ->
  forall this, exists x, parse_decimal base input this = Returns x.
Proof.
  induction input as [|c rest IH]; intros Hd this.
  - exists this. reflexivity.
  - cbn [forallb] in Hd. apply andb_prop in Hd as [Hc Hr].
    cbn [parse_decimal]. rewrite Hc. cbn [negb]. apply IH, Hr.
Qed.

(** What the hexadecimal branch computes: every classified character shifts
    the value by four bits and adds [hex_step]. *)
Lemma parse_hex_spec (input : list ascii) :
  forall this x, wf this -> _sign this = false ->
  parse_hex input this = Returns x ->
  wf x /\ _sign x = false /\
  value x = fold_left (fun v c => v * 16 + hex_step c) input (value this).
Proof.
  induction input as [|c rest IH]; intros this x W S E.
  - cbn [parse_hex] in E. injection E as <-. auto.
  - cbn [parse_hex] in E. cbv zeta in E.
    destruct (isxdigit c || isalpha c) eqn:Eo; [|discriminate].
    assert (Ws : wf (operator_shl this 4)) by auto with integer_wf.
    assert (Ss : _sign (operator_shl this 4) = false)
      by (apply operator_shl_nonneg, S).
    assert (Vs : value (operator_shl this 4) = value this * 16).
    { rewrite !value_nonneg by assumption. rewrite operator_shl_mag by lia.
      reflexivity. }
    assert (Hnn : 0 <= value this).
    { rewrite value_nonneg by assumption. apply wf_mag_nonneg, W. }
    assert (step : forall d, 0 <= d <= 255 -> d = hex_step c ->
              parse_hex rest (operator_plus (operator_shl this 4)
                                (integer_of int32_t d)) = Returns x ->
              wf x /\ _sign x = false /\
              value x = fold_left (fun v c => v * 16 + hex_step c) rest
                          (value this * 16 + hex_step c)).
    { intros d Hd Ed E'. destruct (small_literal d Hd) as [Wd Vd].
      assert (Wp : wf (operator_plus (operator_shl this 4) (integer_of int32_t d)))
        by auto with integer_wf.
      assert (Vp : value (operator_plus (operator_shl this 4) (integer_of int32_t d))
                   = value this * 16 + d).
      { rewrite operator_plus_value, Vs, Vd by assumption. reflexivity. }
      apply IH in E'; [|assumption|apply wf_nonneg_sign; [assumption|lia]].
      rewrite Vp, Ed in E'. exact E'. }
    cbn [fold_left]. unfold hex_step in *.
    destruct (isdigit c) eqn:E1.
    { apply between_range in E1. change (code "9") with 57 in E1.
      change (code "0") with 48 in *.
      apply (step (code c - 48)); [lia | reflexivity | exact E]. }
    destruct (islower c) eqn:E2.
    { apply between_range in E2. change (code "z") with 122 in E2.
      change (code "a") with 97 in *.
      apply (step (code c - 97)); [lia | reflexivity | exact E]. }
    destruct (isupper c) eqn:E3; [|discriminate].
    apply between_range in E3. change (code "Z") with 90 in E3.
    change (code "A") with 65 in *.
    apply (step (code c - 65)); [lia | reflexivity | exact E].
Qed.

Lemma parse_bytes_spec (input : list ascii) (this : integer) :
  _value (parse_bytes input this) = _value this ++ map code input.
Proof.
  revert this. induction input as [|c rest IH]; intros this; cbn [parse_bytes map].
  - rewrite app_nil_r. reflexivity.
  - rewrite IH. cbn [_value]. rewrite <- app_assoc. reflexivity.
Qed.

Lemma bytes_are_digits (input : list ascii) : Forall digit (map code input).
Proof.
  apply Forall_map, Forall_forall. intros c _. unfold digit. unbase.
  apply code_range.
Qed.

Lemma integer_range_wf (input : list ascii) (base : Z) (x : integer) :
  integer_range input base = Returns x -> wf x /\ _sign x = false.
Proof.
  unfold integer_range. destruct input as [|c rest].
  - intros E. injection E as <-. split; [apply integer_zero_wf | reflexivity].
  - set (input := c :: rest).
    destruct ((2 <=? base) && (base <=? 10)) eqn:Eb.
    + destruct (parse_decimal base input integer_zero) as [y| |] eqn:Ey;
        cbn [bind]; try discriminate.
      intros E. injection E as <-.
      apply parse_decimal_spec in Ey as [Wy _];
        [|lia|apply integer_zero_wf|reflexivity].
      split; [apply (wf_integer_rep_value y false Wy) | apply integer_rep_nonneg].
    + destruct (base =? 16).
      * destruct (parse_hex input integer_zero) as [y| |] eqn:Ey;
          cbn [bind]; try discriminate.
        intros E. injection E as <-.
        apply parse_hex_spec in Ey as [Wy _];
          [|apply integer_zero_wf|reflexivity].
        split; [apply (wf_integer_rep_value y false Wy) | apply integer_rep_nonneg].
      * destruct (base =? 256); cbn [bind]; [|discriminate].
        intros E. injection E as <-.
        split; [|apply integer_rep_nonneg].
        apply (integer_rep_wf _ false). rewrite parse_bytes_spec.
        exact (bytes_are_digits (c :: rest)).
Qed.

(** On a non-empty range of decimal digits and a base in 2..10 the
    constructor returns the value of the recurrence
    [v <- v + (v * base + d)]. *)
Lemma integer_range_decimal (input : list ascii) (base : Z) :
  input <> [] -> 2 <= base <= 10 -> forallb isdigit input = true ->
  exists x, integer_range input base = Returns x /\
    value x = fold_left (fun v c => v + (v * base + (code c - code "0")))
                input 0.
Proof.
  intros Hne Hb Hd.
  destruct (parse_decimal_returns base input Hd integer_zero) as [y Ey].
  destruct (parse_decimal_spec base input ltac:(lia) integer_zero y
              integer_zero_wf ltac:(reflexivity) Ey) as (Wy & Ny & Vy).
  change (value integer_zero) with 0 in Vy.
  unfold integer_range. destruct input as [|c rest]; [congruence|].
  replace ((2 <=? base) && (base <=? 10)) with true by lia.
  rewrite Ey. cbn [bind]. eexists. split; [reflexivity|].
  change (trim {| _sign := false; _value := _value y |})
    with (integer_rep (_value y) false).
  rewrite integer_rep_sign_value, <- Vy.
  symmetry. apply value_nonneg, wf_nonneg_sign; assumption.
Qed.

(** In the base-16 branch every letter is taken as a digit: a range of one
    letter is constructed as the distance of the letter from 'a' or 'A'. *)
Lemma integer_range_hex_letter (c : ascii) :
  isalpha c = true ->
  exists x, integer_range [c] 16 = Returns x /\ value x = hex_step c.
Proof.
  intros Ha.
  assert (R : exists y, parse_hex [c] integer_zero = Returns y).
  { cbn [parse_hex]. cbv zeta. rewrite Ha, orb_true_r.
    unfold isalpha in Ha.
    destruct (isdigit c); [eexists; reflexivity|].
    destruct (islower c); [eexists; reflexivity|].
    cbn [orb] in Ha. rewrite Ha. eexists; reflexivity. }
  destruct R as [y Ey].
  destruct (parse_hex_spec [c] integer_zero y integer_zero_wf eq_refl Ey)
    as (Wy & Sy & Vy).
  unfold integer_range. change (16 =? 16) with true.
  change ((2 <=? 16) && (16 <=? 10)) with false. cbv iota.
  rewrite Ey. cbn [bind]. eexists. split; [reflexivity|].
  change (trim {| _sign := false; _value := _value y |})
    with (integer_rep (_value y) false).
  rewrite integer_rep_sign_value, <- (value_nonneg y Sy), Vy.
  cbn [fold_left]. change (value integer_zero) with 0. lia.
Qed.

(** C2.  The decimal branch does not compute [value * base + (c - '0')]:
    the statement [this += (this * base) + (c - '0')] adds the old value
    once more, so each character multiplies the accumulated value by
    [base + 1].  The range "12" in base 10 is constructed as 13, and
    "123456789" as 259374245. *)
Theorem decimal_range_adds_old_value :
  integer_range (range_of "12") 10 = Returns {| _sign := false; _value := [13] |} /\
  exists x, integer_range (range_of "123456789") 10 = Returns x /\ value x = 259374245.
Proof.
  split; [reflexivity|]. eexists. split; reflexivity.
Qed.

(** C3.  In the base-16 branch a letter adds its distance from 'a' (or
    from 'A'), not ten more: "a" is constructed as 0, "F" as 5 and "ff" as
    0x55 = 85, where base 16 denotes 10, 15 and 255. *)
Theorem hex_letters_count_from_zero :
  integer_range (range_of "a") 16 = Returns integer_zero /\
  integer_range (range_of "F") 16 = Returns {| _sign := false; _value := [5] |} /\
  integer_range (range_of "ff") 16 = Returns {| _sign := false; _value := [85] |}.
Proof. repeat split. Qed.

(** C7.  A letter outside a..f is not rejected in the base-16 branch: 'g'
    is alphabetic and lower case, so it is taken as the digit 'g' - 'a' = 6;
    the branch that would throw "Character not between 'a' and 'f' found"
    cannot be reached. *)
Theorem hex_range_takes_any_letter :
  hex_alphabet "g" = false /\
  integer_range (range_of "g") 16 = Returns {| _sign := false; _value := [6] |} /\
  integer_range (range_of "z") 16 = Returns {| _sign := false; _value := [25] |}.
Proof. repeat split. Qed.

(** C8, as stated, fails on the empty range: with base 11 nothing is thrown. *)
Lemma bad_base_empty_range_counterexample :
  accepted_base 11 = false /\
  ~ throws_kind (integer_range [] 11) BadBase.
Proof.
  split; [reflexivity|]. intros (e & E & _). discriminate E.
Qed.

(** C8 (amended).  For every non-empty range and every base outside
    {2..10, 16, 256} the construction throws the bad-base error. *)
Theorem bad_base_rejected (input : list ascii) (base : Z) :
  input <> [] -> accepted_base base = false ->
  integer_range input base = Throws (BadBaseProvided base) /\
  throws_kind (integer_range input base) BadBase.
Proof.
  intros Hne Hb. unfold accepted_base in Hb.
  apply orb_false_elim in Hb as [Hb H256].
  apply orb_false_elim in Hb as [H10 H16].
  assert (E : integer_range input base = Throws (BadBaseProvided base)).
  { unfold integer_range. destruct input as [|c rest]; [congruence|].
    rewrite H10, H16, H256. reflexivity. }
  split; [exact E|]. exists (BadBaseProvided base). split; [exact E | reflexivity].
Qed.

Lemma bad_base_rejected_witness :
  ["1"%char] <> [] /\ accepted_base 11 = false /\
  integer_range ["1"%char] 11 = Throws (BadBaseProvided 11) /\
  throws_kind (integer_range ["1"%char] 11) BadBase.
Proof.
  assert (H1 : ["1"%char] <> []) by discriminate.
  assert (H2 : accepted_base 11 = false) by reflexivity.
  exact (conj H1 (conj H2 (bad_base_rejected ["1"%char] 11 H1 H2))).
Defined.

(** C9.  Whatever the range holds and whatever the base, an integer that
    the iterator constructor produces has the non-negative sign flag (and
    is a well-formed, non-negative value). *)
Theorem iterator_constructor_nonnegative
  (input : list ascii) (base : Z) (x : integer) :
  integer_range input base = Returns x ->
  _sign x = false /\ 0 <= value x /\ wf x.
Proof.
  intros E. apply integer_range_wf in E as [W S].
  refine (conj S (conj _ W)).
  rewrite value_nonneg by assumption. apply wf_mag_nonneg, W.
Qed.

Lemma iterator_constructor_nonnegative_witness :
  let x := {| _sign := false; _value := [18; 52] |} in
  integer_range (list_ascii_of_string "1234") 16 = Returns x /\
  _sign x = false /\ 0 <= value x /\ wf x.
Proof.
  intros x.
  assert (E : integer_range (list_ascii_of_string "1234") 16 = Returns x)
    by reflexivity.
  exact (conj E (iterator_constructor_nonnegative _ 16 x E)).
Defined.

(** C10.  The empty range gives the canonical zero whatever the base
    argument is: the test [start == end] returns before the base is looked
    at. *)
Theorem empty_range_gives_zero (base : Z) :
  integer_range [] base = Returns integer_zero.
Proof. reflexivity. Qed.

(** ** [pow] *)

Lemma low_bit (exp : Z) : Z.land exp 1 = exp mod 2.
Proof. change 1 with (Z.ones 1) at 1. rewrite Z.land_ones by lia. reflexivity. Qed.

Section PowLoops.

(** The native type of the exponent. *)
Variable t : ctype.
Hypothesis native : In t native_types.

(** The counting loop multiplies [result] by [this] once for every value of
    [x] below [exp]. *)
Lemma pow_ten_loop_spec (this : integer) :
  forall (fuel : nat) (x exp : Z) (result : integer),
  0 <= x <= exp -> exp <= max_value t -> (Z.to_nat (exp - x) < fuel)%nat ->
  exists r, pow_ten_loop t fuel this x exp result = Returns r /\
    value r = value result * value this ^ (exp - x) /\
    (wf this -> wf result -> wf r).
Proof.
  induction fuel as [|fuel IH]; intros x exp result Hx He Hf; [lia|].
  cbn [pow_ten_loop]. destruct (Z.ltb_spec x exp) as [Hlt|Hge].
  - rewrite (wrap_in_range t native) by (apply (in_range_nonneg t native); lia).
    destruct (IH (x + 1) exp (operator_mul result this)) as (r & E & V & W);
      try lia.
    exists r. split; [exact E|]. split.
    + rewrite V, operator_mul_value.
      replace (exp - x) with (Z.succ (exp - (x + 1))) by lia.
      rewrite Z.pow_succ_r by lia. ring.
    + intros Wt Wr. apply W; auto with integer_wf.
  - exists result. replace (exp - x) with 0 by lia.
    split; [reflexivity|]. split; [rewrite Z.pow_0_r; ring | auto].
Qed.

(** The squaring loop keeps [result * b ^ exp] unchanged from round to
    round. *)
Lemma pow_loop_spec :
  forall (fuel : nat) (exp : Z) (b result : integer),
  0 <= exp <= max_value t -> (Z.to_nat exp < fuel)%nat ->
  exists r, pow_loop t fuel exp b result = Returns r /\
    value r = value result * value b ^ exp /\
    (wf b -> wf result -> wf r).
Proof.
  induction fuel as [|fuel IH]; intros exp b result He Hf; [lia|].
  cbn [pow_loop]. destruct (Z.eqb_spec exp 0) as [->|Hne].
  - exists result. split; [reflexivity|]. split; [rewrite Z.pow_0_r; ring | auto].
  - rewrite low_bit, Z.shiftr_div_pow2 by lia. change (2 ^ 1) with 2.
    assert (Hh : 0 <= exp / 2 < exp) by (Z.div_mod_to_equations; lia).
    rewrite (wrap_in_range t native) by (apply (in_range_nonneg t native); lia).
    assert (Hp : value b ^ exp
                 = value b ^ (exp mod 2) * (value b * value b) ^ (exp / 2)).
    { rewrite (Z.div_mod exp 2) at 1 by lia.
      rewrite Z.pow_add_r, Z.pow_mul_r by (Z.div_mod_to_equations; lia).
      rewrite Z.pow_2_r. ring. }
    destruct (Z.eqb_spec (exp mod 2) 0) as [E0|E1].
    + destruct (IH (exp / 2) (operator_mul b b) result) as (r & E & V & W);
        try lia.
      exists r. split; [exact E|]. split.
      * rewrite V, operator_mul_value, Hp, E0, Z.pow_0_r. ring.
      * intros Wb Wr. apply W; auto with integer_wf.
    + destruct (IH (exp / 2) (operator_mul b b) (operator_mul result b))
        as (r & E & V & W); try lia.
      exists r. split; [exact E|]. split.
      * rewrite V, !operator_mul_value, Hp.
        replace (exp mod 2) with 1 by (Z.div_mod_to_equations; lia).
        rewrite Z.pow_1_r. ring.
      * intros Wb Wr. apply W; auto with integer_wf.
Qed.

End PowLoops.

Lemma square_and_multiply_pow (p : positive) :
  forall base result : Z,
  square_and_multiply p base result = result * base ^ Zpos p.
Proof.
  induction p as [p IH|p IH|]; intros base result; cbn [square_and_multiply].
  - rewrite IH, Pos2Z.inj_xI, Z.pow_add_r, Z.pow_mul_r, Z.pow_2_r by lia.
    rewrite Z.pow_1_r. ring.
  - rewrite IH, Pos2Z.inj_xO, Z.pow_mul_r, Z.pow_2_r by lia. ring.
  - rewrite Z.pow_1_r. ring.
Qed.

Lemma binary_squaring_pow (base exp : Z) :
  binary_squaring base exp = if exp <? 0 then 0 else base ^ exp.
Proof.
  destruct exp as [|p|p]; cbn [binary_squaring].
  - reflexivity.
  - rewrite square_and_multiply_pow. change (Z.pos p <? 0) with false.
    cbv iota. ring.
  - reflexivity.
Qed.

(** C6.  [pow(e)] returns the base raised to the power [e] when [e >= 0],
    on the repeated-multiplication path taken for the base 10 as well as on
    the binary-squaring path, and zero when [e < 0]; the result is the one
    of the specification's binary squaring, and the loops finish within
    [e + 1] rounds. *)
Theorem pow_spec (t : ctype) (fuel : nat) (v : integer) (e : Z) :
  In t native_types -> in_range t e -> (Z.to_nat e < fuel)%nat ->
  exists r, pow t fuel v e = Returns r /\
    value r = (if e <? 0 then 0 else value v ^ e) /\
    value r = binary_squaring (value v) e /\
    (wf v -> wf r).
Proof.
  intros Ht He Hf. unfold pow. unfold in_range in He.
  rewrite binary_squaring_pow.
  destruct (Z.ltb_spec e 0) as [Hneg|Hpos].
  - exists (integer_of int32_t 0). split; [reflexivity|].
    split; [reflexivity|]. split; [reflexivity|].
    intros _. rewrite integer_nought. apply integer_zero_wf.
  - destruct (operator_eq v (integer_of int32_t 10)).
    + destruct (pow_ten_loop_spec t Ht v fuel 0 e (integer_of int32_t 1))
        as (r & E & V & W); try lia.
      assert (Vr : value r = value v ^ e).
      { rewrite V, Z.sub_0_r. change (value (integer_of int32_t 1)) with 1. ring. }
      exists r. refine (conj E (conj Vr (conj Vr _))).
      intros Wv. apply W; auto with integer_wf.
    + destruct (pow_loop_spec t Ht fuel e v (integer_of int32_t 1))
        as (r & E & V & W); try lia.
      assert (Vr : value r = value v ^ e).
      { rewrite V. change (value (integer_of int32_t 1)) with 1. ring. }
      exists r. refine (conj E (conj Vr (conj Vr _))).
      intros Wv. apply W; auto with integer_wf.
Qed.

Lemma pow_spec_witness :
  let two := {| _sign := false; _value := [2] |} in
  In int32_t native_types /\ in_range int32_t 100 /\
  (Z.to_nat 100 < 101)%nat /\
  exists r, pow int32_t 101 two 100 = Returns r /\
    value r = (if 100 <? 0 then 0 else value two ^ 100) /\
    value r = binary_squaring (value two) 100 /\
    (wf two -> wf r).
Proof.
  intros two.
  assert (H1 : In int32_t native_types) by (cbn; tauto).
  assert (H2 : in_range int32_t 100) by (vm_compute; split; discriminate).
  assert (H3 : (Z.to_nat 100 < 101)%nat) by (vm_compute; lia).
  exact (conj H1 (conj H2 (conj H3 (pow_spec int32_t 101 two 100 H1 H2 H3)))).
Defined.

(** ** [log] *)

Lemma operator_inc_spec (x : integer) :
  wf x -> wf (operator_inc x) /\ value (operator_inc x) = value x + 1.
Proof.
  intros W. unfold operator_inc. pose proof integer_one_wf as W1. split.
  - apply operator_plus_wf; assumption.
  - rewrite operator_plus_value by assumption. reflexivity.
Qed.

(** What the loop of [log] returns: it adds to [count] the number [k] of
    divisions by [b] that bring [x] to zero, so [b^(k-1) <= |x| < b^k] for a
    non-zero [x]: the number of base-[b] digits, one more than the floor of
    the logarithm. *)
Lemma log_loop_spec (b : integer) :
  wf b -> 2 <= value b ->
  forall (fuel : nat) (x count : integer),
  wf x -> wf count -> (Z.to_nat (Z.abs (value x)) < fuel)%nat ->
  exists c k, log_loop fuel b x count = Returns c /\ wf c /\
    value c = value count + k /\
    (value x = 0 -> k = 0) /\
    (value x <> 0 -> 0 < k /\ value b ^ (k - 1) <= Z.abs (value x) < value b ^ k).
Proof.
  intros Wb Hb. induction fuel as [|fuel IH]; intros x count Wx Wc Hf; [lia|].
  cbn [log_loop]. rewrite operator_bool_spec by assumption.
  destruct (Z.eqb_spec (value x) 0) as [E0|Hne]; cbn [negb].
  - exists count, 0.
    refine (conj eq_refl (conj Wc (conj _ (conj _ _)))); [lia | trivial | contradiction].
  - destruct (operator_div_spec x b Wx Wb ltac:(lia)) as (q & Eq & Wq & _ & Vq & _).
    rewrite Eq. cbn [bind].
    assert (Hq : Z.abs (value q) = Z.abs (value x) / value b).
    { rewrite Vq, (Z.abs_eq (value b)) by lia.
      assert (0 <= Z.abs (value x) / value b) by (apply Z.div_pos; lia).
      destruct (xorb (_sign x) (_sign b)); lia. }
    assert (Hlt : Z.abs (value x) / value b < Z.abs (value x))
      by (apply Z.div_lt; lia).
    destruct (operator_inc_spec count Wc) as [Wi Vi].
    destruct (IH q (operator_inc count) Wq Wi ltac:(lia))
      as (c & k & E & Wcc & V & K0 & K1).
    exists c, (k + 1). split; [exact E|]. split; [assumption|].
    split; [lia|]. split; [contradiction|]. intros _.
    pose proof (Z.div_mod (Z.abs (value x)) (value b) ltac:(lia)) as Hdm.
    pose proof (Z.mod_pos_bound (Z.abs (value x)) (value b) ltac:(lia)) as Hm.
    destruct (Z.eq_dec (value q) 0) as [Eq0|Hq0].
    + specialize (K0 Eq0). subst k.
      change (0 + 1 - 1) with 0. change (0 + 1) with 1.
      rewrite Z.pow_0_r, Z.pow_1_r. nia.
    + destruct (K1 Hq0) as (Hk & Hlo & Hhi). rewrite Hq in Hlo, Hhi.
      replace (k + 1 - 1) with (Z.succ (k - 1)) by lia.
      replace (k + 1) with (Z.succ k) at 2 by lia.
      rewrite !Z.pow_succ_r by lia. split; [lia|]. nia.
Qed.

(** [log] with a base [b >= 2] of a native type returns the number [k] of
    base-[b] digits of the value: zero for zero, and
    [b^(k-1) <= |v| < b^k] otherwise. *)
Lemma log_spec (t : ctype) (fuel : nat) (v : integer) (b : Z) :
  In t native_types -> 2 <= b <= max_value t -> wf v ->
  (Z.to_nat (Z.abs (value v)) < fuel)%nat ->
  exists c, log t fuel v b = Returns c /\
    (value v = 0 -> value c = 0) /\
    (value v <> 0 ->
     0 < value c /\ b ^ (value c - 1) <= Z.abs (value v) < b ^ value c).
Proof.
  intros Ht Hb Wv Hf. unfold log.
  destruct (integer_of_spec t Ht b ltac:(lia)) as (Wb & Vb & _).
  destruct (log_loop_spec (integer_of t b) Wb ltac:(lia) fuel v
              (integer_of int32_t 0))
    as (c & k & E & _ & V & K0 & K1); trivial.
  { rewrite integer_nought. apply integer_zero_wf. }
  change (value (integer_of int32_t 0)) with 0 in V. rewrite Vb in K1.
  exists c. replace (value c) with k by lia. auto.
Qed.

(** C5.  [log] does not return the floor of the logarithm of a non-zero
    value: its loop counts the divisions that bring the value to zero, which
    is one more.  For the value 1 and base 2 it returns 1, and for 1000 and
    base 10 it returns 4, where the floors of the logarithms are 0 and 3. *)
Theorem log_counts_divisions (fuel : nat) :
  log int32_t (S (S fuel)) {| _sign := false; _value := [1] |} 2
  = Returns {| _sign := false; _value := [1] |} /\
  log int32_t (5 + fuel) {| _sign := false; _value := [3; 232] |} 10
  = Returns {| _sign := false; _value := [4] |} /\
  value {| _sign := false; _value := [3; 232] |} = 1000 /\
  Z.log2 1 = 0.
Proof. repeat split. Qed.

(* ================================================================== *)
(** * Part III: further properties of the code in the header *)
(* ================================================================== *)

(** ** The representation is canonical *)

Lemma digits_inj (a b : REP) :
  Forall digit a -> Forall digit b -> length a = length b ->
  mag a = mag b -> a = b.
Proof.
  intros Ha. revert b. induction Ha as [|x a Hx Ha IH]; intros b Hb Hl Hm.
  - destruct b; [reflexivity | discriminate].
  - destruct Hb as [|y b Hy Hb]; [discriminate|]. injection Hl as Hl.
    rewrite !mag_cons, <- Hl in Hm.
    pose proof (mag_bounds a Ha) as Ba. pose proof (mag_bounds b Hb) as Bb.
    rewrite <- Hl in Bb. set (P := BASE ^ Z.of_nat (length a)) in *.
    assert (x = y) by nia. subst y.
    f_equal. apply IH; trivial. lia.
Qed.

Lemma wf_value_inj (a b : integer) : wf a -> wf b -> value a = value b -> a = b.
Proof.
  intros Wa Wb Hv.
  assert (Hm : mag (_value a) = mag (_value b)).
  { rewrite (wf_mag_abs a Wa), (wf_mag_abs b Wb), Hv. reflexivity. }
  assert (Hl : length (_value a) = length (_value b)).
  { pose proof (mag_le_length a b Wa Wb ltac:(lia)).
    pose proof (mag_le_length b a Wb Wa ltac:(lia)). lia. }
  assert (Hd : _value a = _value b).
  { destruct Wa as [Da _ _], Wb as [Db _ _]. apply digits_inj; assumption. }
  assert (Hs : _sign a = _sign b).
  { destruct (_sign a) eqn:Ea, (_sign b) eqn:Eb; trivial.
    - pose proof (wf_negative_pos a Wa Ea). pose proof (wf_mag_nonneg b Wb).
      unfold value in Hv. rewrite Ea, Eb in Hv. lia.
    - pose proof (wf_negative_pos b Wb Eb). pose proof (wf_mag_nonneg a Wa).
      unfold value in Hv. rewrite Ea, Eb in Hv. lia. }
  destruct a, b; cbn in *; congruence.
Qed.

Lemma wf_digit_count (x : integer) :
  wf x -> value x <> 0 ->
  BASE ^ (Z.of_nat (length (_value x)) - 1) <= Z.abs (value x)
    < BASE ^ Z.of_nat (length (_value x)).
Proof.
  intros W Hv. rewrite <- (wf_mag_abs x W).
  destruct W as [Hd Ht _]. pose proof (mag_bounds _ Hd) as Hb.
  destruct (_value x) as [|d v] eqn:E.
  - unfold value in Hv. rewrite E, mag_nil in Hv. destruct (_sign x); lia.
  - cbn [hd] in Ht. pose proof (mag_lower d v Hd Ht) as Hl.
    cbn [length] in *. replace (Z.of_nat (S (length v)) - 1)
      with (Z.of_nat (length v)) by lia. lia.
Qed.

(** ** More on [setFromZ] *)

(** X1.  For every value of a native type but the most negative one of a
    signed type, [setFromZ] returns within one round per byte of the type
    (and the final test): the integer constructed is well formed, stands
    for the value, and carries the sign flag exactly when the value is
    negative. *)
Theorem setFromZ_constructs (t : ctype) (fuel : nat) (val : Z) :
  In t native_types -> in_range t val ->
  (is_signed t = true -> val <> min_value t) ->
  (rounds t <= fuel)%nat ->
  exists x, setFromZ t fuel val = Returns x /\ wf x /\ value x = val /\
            _sign x = (val <? 0).
Proof. intros Ht. apply (setFromZ_returns t Ht). Qed.

Lemma setFromZ_constructs_witness :
  In int16_t native_types /\ in_range int16_t (-300) /\
  (is_signed int16_t = true -> -300 <> min_value int16_t) /\
  (rounds int16_t <= 3)%nat /\
  exists x, setFromZ int16_t 3 (-300) = Returns x /\ wf x /\
            value x = -300 /\ _sign x = (-300 <? 0).
Proof.
  assert (H1 : In int16_t native_types) by (cbn; tauto).
  assert (H2 : in_range int16_t (-300)) by (vm_compute; split; discriminate).
  assert (H3 : is_signed int16_t = true -> -300 <> min_value int16_t)
    by (intros _; vm_compute; discriminate).
  assert (H4 : (rounds int16_t <= 3)%nat) by (vm_compute; lia).
  exact (conj H1 (conj H2 (conj H3 (conj H4
           (setFromZ_constructs int16_t 3 (-300) H1 H2 H3 H4))))).
Defined.

Lemma setFromZ_loop_more_fuel (t : ctype) (fuel : nat) :
  forall (val : Z) (v r : REP) (k : nat),
  setFromZ_loop t fuel val v = Returns r ->
  setFromZ_loop t (fuel + k) val v = Returns r.
Proof.
  induction fuel as [|fuel IH]; intros val v r k E; [discriminate|].
  cbn [setFromZ_loop Nat.add] in *. destruct (val =? 0); [assumption|].
  apply IH, E.
Qed.

Lemma setFromZ_more_fuel (t : ctype) (fuel k : nat) (val : Z) (x : integer) :
  setFromZ t fuel val = Returns x -> setFromZ t (fuel + k) val = Returns x.
Proof.
  unfold setFromZ. intros E.
  destruct (setFromZ_loop t fuel _ []) as [r| |] eqn:El; try discriminate.
  rewrite (setFromZ_loop_more_fuel t fuel _ _ r k El). exact E.
Qed.

(** Whenever [setFromZ] returns, what it returns is the value. *)
Lemma setFromZ_sound (t : ctype) (fuel : nat) (val : Z) (x : integer) :
  In t native_types -> in_range t val ->
  setFromZ t fuel val = Returns x ->
  wf x /\ value x = val /\ _sign x = (val <? 0).
Proof.
  intros Ht Hr E.
  assert (Hmin : is_signed t = true -> val <> min_value t).
  { intros Hs ->. rewrite (setFromZ_most_negative t Ht fuel Hs) in E.
    discriminate. }
  destruct (setFromZ_returns t Ht (fuel + rounds t) val Hr Hmin ltac:(lia))
    as (y & Ey & Wy).
  rewrite (setFromZ_more_fuel t fuel (rounds t) val x E) in Ey.
  injection Ey as <-. exact Wy.
Qed.

(** X2.  The integer [setFromZ] constructs has exactly the digits the value
    needs: none for zero, and otherwise [n] digits with
    [256^(n-1) <= |val| < 256^n]. *)
Theorem setFromZ_digit_count (t : ctype) (fuel : nat) (val : Z) (x : integer) :
  In t native_types -> in_range t val ->
  setFromZ t fuel val = Returns x ->
  (val = 0 -> _value x = []) /\
  (val <> 0 ->
   256 ^ (Z.of_nat (length (_value x)) - 1) <= Z.abs val
     < 256 ^ Z.of_nat (length (_value x))).
Proof.
  intros Ht Hr E. destruct (setFromZ_sound t fuel val x Ht Hr E) as (W & V & _).
  split.
  - intros ->. destruct W as [Hd Hh _]. apply wf_mag_zero; trivial.
    pose proof (mag_bounds _ Hd). unfold value in V. destruct (_sign x); lia.
  - intros Hne. rewrite <- V. apply (wf_digit_count x W). lia.
Qed.

Lemma setFromZ_digit_count_witness :
  let x := {| _sign := false; _value := [1; 0; 0] |} in
  In uint32_t native_types /\ in_range uint32_t 65536 /\
  setFromZ uint32_t 5 65536 = Returns x /\
  (65536 = 0 -> _value x = []) /\
  (65536 <> 0 ->
   256 ^ (Z.of_nat (length (_value x)) - 1) <= Z.abs 65536
     < 256 ^ Z.of_nat (length (_value x))).
Proof.
  intros x.
  assert (H1 : In uint32_t native_types) by (cbn; tauto).
  assert (H2 : in_range uint32_t 65536) by (vm_compute; split; discriminate).
  assert (H3 : setFromZ uint32_t 5 65536 = Returns x) by reflexivity.
  exact (conj H1 (conj H2 (conj H3
           (setFromZ_digit_count uint32_t 5 65536 x H1 H2 H3)))).
Defined.

(** X3.  The integer constructed does not depend on the native type the
    value comes in: two instances of [setFromZ] that return for the same
    value return the same integer. *)
Theorem setFromZ_type_independent
  (t1 t2 : ctype) (fuel1 fuel2 : nat) (val : Z) (x1 x2 : integer) :
  In t1 native_types -> In t2 native_types ->
  in_range t1 val -> in_range t2 val ->
  setFromZ t1 fuel1 val = Returns x1 -> setFromZ t2 fuel2 val = Returns x2 ->
  x1 = x2.
Proof.
  intros T1 T2 R1 R2 E1 E2.
  destruct (setFromZ_sound t1 fuel1 val x1 T1 R1 E1) as (W1 & V1 & _).
  destruct (setFromZ_sound t2 fuel2 val x2 T2 R2 E2) as (W2 & V2 & _).
  apply wf_value_inj; trivial. congruence.
Qed.

Lemma setFromZ_type_independent_witness :
  let x := {| _sign := true; _value := [100] |} in
  In int8_t native_types /\ In int64_t native_types /\
  in_range int8_t (-100) /\ in_range int64_t (-100) /\
  setFromZ int8_t 2 (-100) = Returns x /\
  setFromZ int64_t 9 (-100) = Returns x /\ x = x.
Proof.
  intros x.
  assert (T1 : In int8_t native_types) by (cbn; tauto).
  assert (T2 : In int64_t native_types) by (cbn; tauto).
  assert (R1 : in_range int8_t (-100)) by (vm_compute; split; discriminate).
  assert (R2 : in_range int64_t (-100)) by (vm_compute; split; discriminate).
  assert (E1 : setFromZ int8_t 2 (-100) = Returns x) by reflexivity.
  assert (E2 : setFromZ int64_t 9 (-100) = Returns x) by reflexivity.
  exact (conj T1 (conj T2 (conj R1 (conj R2 (conj E1 (conj E2
    (setFromZ_type_independent int8_t int64_t 2 9 (-100) x x
       T1 T2 R1 R2 E1 E2))))))).
Defined.

(** X4.  Negating the value only flips the sign flag: when [setFromZ]
    returns for [val] and for [-val], the two integers have the same digits,
    and opposite sign flags unless the value is zero. *)
Theorem setFromZ_negation
  (t : ctype) (fuel1 fuel2 : nat) (val : Z) (x y : integer) :
  In t native_types -> in_range t val -> in_range t (- val) ->
  setFromZ t fuel1 val = Returns x -> setFromZ t fuel2 (- val) = Returns y ->
  _value y = _value x /\ (val <> 0 -> _sign y = negb (_sign x)).
Proof.
  intros Ht R1 R2 E1 E2.
  destruct (setFromZ_sound t fuel1 val x Ht R1 E1) as (W1 & V1 & S1).
  destruct (setFromZ_sound t fuel2 (- val) y Ht R2 E2) as (W2 & V2 & S2).
  split.
  - assert (Hm : mag (_value y) = mag (_value x)).
    { rewrite (wf_mag_abs x W1), (wf_mag_abs y W2), V1, V2. lia. }
    pose proof (mag_le_length x y W1 W2 ltac:(lia)).
    pose proof (mag_le_length y x W2 W1 ltac:(lia)).
    apply digits_inj; [apply W2 | apply W1 | lia | exact Hm].
  - intros Hne. rewrite S1, S2.
    destruct (Z.ltb_spec val 0), (Z.ltb_spec (- val) 0); cbn; trivial; lia.
Qed.

Lemma setFromZ_negation_witness :
  let x := {| _sign := false; _value := [1; 44] |} in
  let y := {| _sign := true; _value := [1; 44] |} in
  In int32_t native_types /\ in_range int32_t 300 /\ in_range int32_t (- 300) /\
  setFromZ int32_t 5 300 = Returns x /\ setFromZ int32_t 5 (- 300) = Returns y /\
  _value y = _value x /\ (300 <> 0 -> _sign y = negb (_sign x)).
Proof.
  intros x y.
  assert (T : In int32_t native_types) by (cbn; tauto).
  assert (R1 : in_range int32_t 300) by (vm_compute; split; discriminate).
  assert (R2 : in_range int32_t (- 300)) by (vm_compute; split; discriminate).
  assert (E1 : setFromZ int32_t 5 300 = Returns x) by reflexivity.
  assert (E2 : setFromZ int32_t 5 (- 300) = Returns y) by reflexivity.
  exact (conj T (conj R1 (conj R2 (conj E1 (conj E2
    (setFromZ_negation int32_t 5 5 300 x y T R1 R2 E1 E2)))))).
Defined.

(** ** More on the iterator constructor: base 256 *)

Lemma trim_digits_fixed (v : REP) : hd 1 v <> 0 -> trim_digits v = v.
Proof.
  destruct v as [|d v]; [reflexivity|]. cbn [hd trim_digits]. intros H.
  destruct (Z.eqb_spec d 0); [contradiction | reflexivity].
Qed.

Lemma trim_digits_zeros (n : nat) (v : REP) :
  trim_digits (repeat 0 n ++ v) = trim_digits v.
Proof. induction n as [|n IH]; [reflexivity | exact IH]. Qed.

Lemma integer_rep_trimmed (v w : REP) (s : bool) :
  trim_digits v = trim_digits w -> integer_rep v s = integer_rep w s.
Proof. unfold integer_rep, trim. cbn [_value _sign]. intros ->. reflexivity. Qed.

Lemma integer_range_bytes (input : list ascii) :
  integer_range input 256 = Returns (integer_rep (map code input) false).
Proof.
  destruct input as [|c rest]; [reflexivity|].
  unfold integer_range. change ((2 <=? 256) && (256 <=? 10)) with false.
  change (256 =? 16) with false. change (256 =? 256) with true. cbv iota.
  cbn [bind]. rewrite parse_bytes_spec. reflexivity.
Qed.

(** X5.  In base 256 the constructor never throws, whatever bytes the range
    holds: it returns the well-formed integer whose value is the big-endian
    number of the bytes. *)
Theorem bytes_range_value (input : list ascii) :
  exists x, integer_range input 256 = Returns x /\ wf x /\
            value x = mag (map code input).
Proof.
  rewrite integer_range_bytes. eexists. split; [reflexivity|]. split.
  - apply integer_rep_wf, bytes_are_digits.
  - apply integer_rep_sign_value.
Qed.

(** X6.  In base 256 ranges compose: the value of a concatenation is the
    value of the first range shifted by the length of the second, plus the
    value of the second. *)
Theorem bytes_range_concat (a b : list ascii) :
  exists xa xb xab,
    integer_range a 256 = Returns xa /\ integer_range b 256 = Returns xb /\
    integer_range (a ++ b) 256 = Returns xab /\
    value xab = value xa * 256 ^ Z.of_nat (length b) + value xb.
Proof.
  rewrite !integer_range_bytes. do 3 eexists.
  repeat (split; [reflexivity|]).
  rewrite !integer_rep_sign_value, map_app, mag_app, length_map. reflexivity.
Qed.

(** X7.  In base 256 zero bytes at the front of the range are dropped: the
    constructor returns the same integer with and without them. *)
Theorem bytes_range_leading_zeros (n : nat) (input : list ascii) :
  integer_range (repeat zero_byte n ++ input) 256 = integer_range input 256.
Proof.
  rewrite !integer_range_bytes. f_equal. apply integer_rep_trimmed.
  rewrite map_app, map_repeat. apply trim_digits_zeros.
Qed.

(** X8.  In base 256 a range that does not start with a zero byte is stored
    as it is: the digits of the integer constructed are the bytes of the
    range, in order. *)
Theorem bytes_range_round_trip (input : list ascii) :
  hd 1 (map code input) <> 0 ->
  integer_range input 256
  = Returns {| _sign := false; _value := map code input |}.
Proof.
  intros H. rewrite integer_range_bytes. f_equal.
  unfold integer_rep, trim. cbn [_value _sign].
  rewrite (trim_digits_fixed _ H). destruct (map code input); reflexivity.
Qed.

Lemma bytes_range_round_trip_witness :
  hd 1 (map code (range_of "key")) <> 0 /\
  integer_range (range_of "key") 256
  = Returns {| _sign := false; _value := map code (range_of "key") |}.
Proof.
  assert (H : hd 1 (map code (range_of "key")) <> 0) by (vm_compute; discriminate).
  exact (conj H (bytes_range_round_trip (range_of "key") H)).
Defined.

(** ** More on the iterator constructor: bases 2 to 10 *)

(** The first character that is not a decimal digit stops the loop. *)
Lemma parse_decimal_throws (base : Z) (input : list ascii) :
  forallb isdigit input = false ->
  forall this, parse_decimal base input this = Throws NonDigit.
Proof.
  induction input as [|c rest IH]; intros Hd this; [discriminate|].
  cbn [forallb] in Hd. cbn [parse_decimal].
  destruct (isdigit c); cbn [negb andb] in *; [apply IH, Hd | reflexivity].
Qed.

Lemma decimal_branch (input : list ascii) (base : Z) :
  2 <= base <= 10 ->
  integer_range input base
  = match input with
    | [] => Returns integer_zero
    | _ :: _ =>
        this <- parse_decimal base input integer_zero ;;
        Returns (integer_rep (_value this) false)
    end.
Proof.
  intros Hb. unfold integer_range. destruct input; [reflexivity|].
  replace ((2 <=? base) && (base <=? 10)) with true by lia. reflexivity.
Qed.

Lemma decimal_range_outcome (input : list ascii) (base : Z) :
  2 <= base <= 10 ->
  if forallb isdigit input
  then exists x, integer_range input base = Returns x
  else integer_range input base = Throws NonDigit.
Proof.
  intros Hb. rewrite (decimal_branch input base Hb).
  destruct (forallb isdigit input) eqn:Hd.
  - destruct input as [|c rest]; [eexists; reflexivity|].
    destruct (parse_decimal_returns base (c :: rest) Hd integer_zero)
      as [y ->]. eexists; reflexivity.
  - destruct input as [|c rest]; [discriminate|].
    rewrite (parse_decimal_throws base (c :: rest) Hd). reflexivity.
Qed.

(** X9.  With a base in 2..10 the constructor throws the non-digit error
    exactly when some character of the range is not a decimal digit; a
    range of decimal digits is never rejected, whatever the base (a digit
    is not compared with the base). *)
Theorem decimal_range_rejects_non_digits (input : list ascii) (base : Z) :
  2 <= base <= 10 ->
  (integer_range input base = Throws NonDigit <-> forallb isdigit input = false)
  /\ ((exists x, integer_range input base = Returns x)
      <-> forallb isdigit input = true).
Proof.
  intros Hb. pose proof (decimal_range_outcome input base Hb) as O.
  destruct (forallb isdigit input).
  - destruct O as [x ->]. split; split; intros H; try discriminate; eauto.
  - rewrite O. split; split; intros H; trivial; try discriminate.
    destruct H as [x H]. discriminate.
Qed.

Lemma decimal_range_rejects_non_digits_witness :
  2 <= 2 <= 10 /\
  (integer_range (range_of "1x1") 2 = Throws NonDigit
   <-> forallb isdigit (range_of "1x1") = false)
  /\ ((exists x, integer_range (range_of "1x1") 2 = Returns x)
      <-> forallb isdigit (range_of "1x1") = true).
Proof.
  assert (H : 2 <= 2 <= 10) by lia.
  exact (conj H (decimal_range_rejects_non_digits (range_of "1x1") 2 H)).
Defined.

Lemma decimal_range_value (input : list ascii) (base : Z) :
  2 <= base <= 10 -> forallb isdigit input = true ->
  exists x, integer_range input base = Returns x /\ wf x /\
    value x = fold_left (fun v c => v + (v * base + (code c - code "0")))
                input 0.
Proof.
  intros Hb Hd. destruct input as [|c rest].
  - exists integer_zero. split; [reflexivity|]. split; [apply integer_zero_wf|].
    reflexivity.
  - destruct (integer_range_decimal (c :: rest) base ltac:(discriminate) Hb Hd)
      as (x & E & V).
    exists x. split; [exact E|]. split; [|exact V].
    apply (integer_range_wf _ _ _ E).
Qed.

(** X10.  On a range of decimal digits and a base in 2..10 the constructor
    returns the value of the recurrence [v <- v + (v * base + d)] run from
    zero over the digits [d] of the range: each character adds the digit to
    [base + 1] times the value so far. *)
Theorem decimal_range_recurrence (input : list ascii) (base : Z) :
  2 <= base <= 10 -> forallb isdigit input = true ->
  exists x, integer_range input base = Returns x /\
    value x = fold_left (fun v c => (base + 1) * v + (code c - code "0"))
                input 0.
Proof.
  intros Hb Hd. destruct (decimal_range_value input base Hb Hd) as (x & E & _ & V).
  exists x. split; [exact E|]. rewrite V. generalize 0.
  clear. induction input as [|c rest IH]; intros v; [reflexivity|].
  cbn [fold_left]. rewrite IH. f_equal. ring.
Qed.

Lemma decimal_range_recurrence_witness :
  2 <= 8 <= 10 /\ forallb isdigit (range_of "17") = true /\
  exists x, integer_range (range_of "17") 8 = Returns x /\
    value x = fold_left (fun v c => (8 + 1) * v + (code c - code "0"))
                (range_of "17") 0.
Proof.
  assert (H1 : 2 <= 8 <= 10) by lia.
  assert (H2 : forallb isdigit (range_of "17") = true) by reflexivity.
  exact (conj H1 (conj H2 (decimal_range_recurrence (range_of "17") 8 H1 H2))).
Defined.

Lemma forallb_zero_digits (n : nat) (input : list ascii) :
  forallb isdigit (repeat zero_digit n ++ input) = forallb isdigit input.
Proof. induction n as [|n IH]; [reflexivity | exact IH]. Qed.

(** X11.  With a base in 2..10 characters '0' at the front of the range do
    not matter: the constructor gives the same outcome, the same integer or
    the same error, with and without them. *)
Theorem decimal_range_leading_zeros (n : nat) (input : list ascii) (base : Z) :
  2 <= base <= 10 ->
  integer_range (repeat zero_digit n ++ input) base = integer_range input base.
Proof.
  intros Hb. destruct (forallb isdigit input) eqn:Hd.
  - destruct (decimal_range_value input base Hb Hd) as (x & Ex & Wx & Vx).
    destruct (decimal_range_value (repeat zero_digit n ++ input) base Hb)
      as (y & Ey & Wy & Vy).
    { rewrite forallb_zero_digits. exact Hd. }
    rewrite Ex, Ey. f_equal. apply wf_value_inj; trivial.
    rewrite Vx, Vy, fold_left_app. f_equal.
    clear. induction n as [|n IH]; [reflexivity|]. cbn [repeat fold_left].
    change (code zero_digit - code "0") with 0.
    replace (0 + (0 * base + 0)) with 0 by ring. exact IH.
  - pose proof (decimal_range_outcome input base Hb) as T1.
    pose proof (decimal_range_outcome (repeat zero_digit n ++ input) base Hb)
      as T2.
    rewrite forallb_zero_digits in T2. rewrite Hd in T1, T2. congruence.
Qed.

Lemma decimal_range_leading_zeros_witness :
  2 <= 10 <= 10 /\
  integer_range (repeat zero_digit 3 ++ range_of "42") 10
  = integer_range (range_of "42") 10.
Proof.
  assert (H : 2 <= 10 <= 10) by lia.
  exact (conj H (decimal_range_leading_zeros 3 (range_of "42") 10 H)).
Defined.

(** ** More on the iterator constructor: base 16 *)

Lemma hex_branch (input : list ascii) :
  integer_range input 16
  = match input with
    | [] => Returns integer_zero
    | _ :: _ =>
        this <- parse_hex input integer_zero ;;
        Returns (integer_rep (_value this) false)
    end.
Proof. destruct input; reflexivity. Qed.

(** A character that passes the test of the branch is a digit, a lower case
    letter or an upper case letter, so one of the three additions is made. *)
Lemma hex_accepted_cases (c : ascii) :
  hex_accepted c = true ->
  isdigit c = true \/ islower c = true \/ isupper c = true.
Proof.
  unfold hex_accepted, isxdigit, isalpha, isdigit, islower, isupper, between.
  change (code "0") with 48. change (code "9") with 57.
  change (code "a") with 97. change (code "f") with 102.
  change (code "z") with 122. change (code "A") with 65.
  change (code "F") with 70. change (code "Z") with 90. lia.
Qed.

Lemma parse_hex_step (c : ascii) (rest : list ascii) (this : integer) :
  parse_hex (c :: rest) this
  = if hex_accepted c
    then parse_hex rest
           (operator_plus (operator_shl this 4) (integer_of int32_t (hex_step c)))
    else Throws NonAlphanumeric.
Proof.
  cbn [parse_hex]. cbv zeta. fold (hex_accepted c).
  destruct (hex_accepted c) eqn:Ha; [|reflexivity].
  pose proof (hex_accepted_cases c Ha) as Hc. unfold hex_step.
  destruct (isdigit c); [reflexivity|].
  destruct (islower c); [reflexivity|].
  destruct (isupper c); [reflexivity|].
  destruct Hc as [H|[H|H]]; discriminate.
Qed.

Lemma parse_hex_throws (input : list ascii) :
  forallb hex_accepted input = false ->
  forall this, parse_hex input this = Throws NonAlphanumeric.
Proof.
  induction input as [|c rest IH]; intros Hd this; [discriminate|].
  cbn [forallb] in Hd. rewrite parse_hex_step.
  destruct (hex_accepted c); cbn [andb] in *; [apply IH, Hd | reflexivity].
Qed.

Lemma parse_hex_returns (input : list ascii) :
  forallb hex_accepted input = true ->
  forall this, exists x, parse_hex input this = Returns x.
Proof.
  induction input as [|c rest IH]; intros Hd this.
  - exists this. reflexivity.
  - cbn [forallb] in Hd. apply andb_prop in Hd as [Hc Hr].
    rewrite parse_hex_step, Hc. apply IH, Hr.
Qed.

Lemma hex_range_outcome (input : list ascii) :
  if forallb hex_accepted input
  then exists x, integer_range input 16 = Returns x
  else integer_range input 16 = Throws NonAlphanumeric.
Proof.
  rewrite hex_branch. destruct (forallb hex_accepted input) eqn:Hd.
  - destruct input as [|c rest]; [eexists; reflexivity|].
    destruct (parse_hex_returns (c :: rest) Hd integer_zero) as [y ->].
    eexists; reflexivity.
  - destruct input as [|c rest]; [discriminate|].
    rewrite (parse_hex_throws (c :: rest) Hd). reflexivity.
Qed.

(** X12.  In base 16 the constructor throws the non-alphanumeric error
    exactly when some character of the range is neither a hexadecimal digit
    nor a letter, and returns otherwise; the error "Character not between
    'a' and 'f' found" is never thrown. *)
Theorem hex_range_rejects_non_alphanumeric (input : list ascii) :
  (integer_range input 16 = Throws NonAlphanumeric
   <-> forallb hex_accepted input = false)
  /\ ((exists x, integer_range input 16 = Returns x)
      <-> forallb hex_accepted input = true)
  /\ integer_range input 16 <> Throws NotHexLetter.
Proof.
  pose proof (hex_range_outcome input) as O.
  destruct (forallb hex_accepted input).
  - destruct O as [x ->].
    split; [|split]; try split; intros H; try discriminate; eauto.
  - rewrite O. split; [|split]; try split; intros H; trivial; try discriminate.
    destruct H as [x H]. discriminate.
Qed.

Lemma hex_range_value (input : list ascii) :
  forallb hex_accepted input = true ->
  exists x, integer_range input 16 = Returns x /\ wf x /\
    value x = fold_left (fun v c => v * 16 + hex_step c) input 0.
Proof.
  intros Hd. destruct input as [|c rest].
  - exists integer_zero. split; [reflexivity|]. split; [apply integer_zero_wf|].
    reflexivity.
  - destruct (parse_hex_returns (c :: rest) Hd integer_zero) as [y Ey].
    destruct (parse_hex_spec (c :: rest) integer_zero y integer_zero_wf
                eq_refl Ey) as (Wy & Sy & Vy).
    rewrite hex_branch, Ey. cbn [bind]. eexists. split; [reflexivity|].
    split; [apply wf_integer_rep_value, Wy|].
    rewrite integer_rep_sign_value, <- (value_nonneg y Sy), Vy. reflexivity.
Qed.

(** X13.  In base 16, on a range of digits and letters, the constructor
    returns the value of the recurrence [v <- 16 * v + d] run from zero,
    where a decimal digit contributes its value and a letter its distance
    from 'a' or 'A'. *)
Theorem hex_range_recurrence (input : list ascii) :
  forallb hex_accepted input = true ->
  exists x, integer_range input 16 = Returns x /\
    value x = fold_left (fun v c => 16 * v + hex_step c) input 0.
Proof.
  intros Hd. destruct (hex_range_value input Hd) as (x & E & _ & V).
  exists x. split; [exact E|]. rewrite V. generalize 0.
  clear. induction input as [|c rest IH]; intros v; [reflexivity|].
  cbn [fold_left]. rewrite IH. f_equal. ring.
Qed.

Lemma hex_range_recurrence_witness :
  forallb hex_accepted (range_of "1b0") = true /\
  exists x, integer_range (range_of "1b0") 16 = Returns x /\
    value x = fold_left (fun v c => 16 * v + hex_step c) (range_of "1b0") 0.
Proof.
  assert (H : forallb hex_accepted (range_of "1b0") = true) by reflexivity.
  exact (conj H (hex_range_recurrence (range_of "1b0") H)).
Defined.

(** X14.  In base 16 a range of decimal digits only is read as the number it
    denotes in base 16. *)
Theorem hex_range_of_decimal_digits (input : list ascii) :
  forallb isdigit input = true ->
  exists x, integer_range input 16 = Returns x /\
    value x = fold_left (fun v c => 16 * v + (code c - code "0")) input 0.
Proof.
  intros Hd.
  assert (Ha : forallb hex_accepted input = true).
  { rewrite forallb_forall in *. intros c Hc. specialize (Hd c Hc).
    unfold hex_accepted, isxdigit. rewrite Hd. reflexivity. }
  destruct (hex_range_value input Ha) as (x & E & _ & V).
  exists x. split; [exact E|]. rewrite V. generalize 0.
  clear -Hd. induction input as [|c rest IH]; intros v; [reflexivity|].
  cbn [forallb] in Hd. apply andb_prop in Hd as [Hc Hr].
  cbn [fold_left]. rewrite (IH Hr). f_equal. unfold hex_step. rewrite Hc. ring.
Qed.

Lemma hex_range_of_decimal_digits_witness :
  forallb isdigit (range_of "2024") = true /\
  exists x, integer_range (range_of "2024") 16 = Returns x /\
    value x = fold_left (fun v c => 16 * v + (code c - code "0"))
                (range_of "2024") 0.
Proof.
  assert (H : forallb isdigit (range_of "2024") = true) by reflexivity.
  exact (conj H (hex_range_of_decimal_digits (range_of "2024") H)).
Defined.

Lemma between_spec (lo hi c : ascii) :
  between lo hi c = true <-> code lo <= code c <= code hi.
Proof. unfold between. lia. Qed.

Lemma between_out (lo hi c : ascii) :
  code c < code lo \/ code hi < code c -> between lo hi c = false.
Proof. unfold between. lia. Qed.

Lemma lower_letter (c : ascii) :
  97 <= code c <= 122 -> hex_accepted c = true /\ hex_step c = code c - 97.
Proof.
  intros H. unfold hex_accepted, hex_step, isalpha, isdigit, islower.
  rewrite (between_out "0" "9" c) by (change (code "9") with 57; lia).
  rewrite (proj2 (between_spec "a" "z" c))
    by (change (code "a") with 97; change (code "z") with 122; lia).
  split; [apply orb_true_r | reflexivity].
Qed.

Lemma upper_letter (c : ascii) :
  65 <= code c <= 90 -> hex_accepted c = true /\ hex_step c = code c - 65.
Proof.
  intros H. unfold hex_accepted, hex_step, isalpha, isdigit, islower, isupper.
  rewrite (between_out "0" "9" c) by (change (code "9") with 57; lia).
  rewrite (between_out "a" "z" c) by (change (code "a") with 97; lia).
  rewrite (proj2 (between_spec "A" "Z" c))
    by (change (code "A") with 65; change (code "Z") with 90; lia).
  split; [apply orb_true_r | reflexivity].
Qed.

Lemma same_letter_step (c d : ascii) :
  same_letter c d -> hex_accepted c = hex_accepted d /\ hex_step c = hex_step d.
Proof.
  intros [->|[[Hl Hd]|[Hu Hd]]]; [split; reflexivity | |].
  - apply between_spec in Hl. change (code "a") with 97 in Hl.
    change (code "z") with 122 in Hl.
    destruct (lower_letter c Hl) as [-> ->].
    destruct (upper_letter d ltac:(lia)) as [-> ->]. split; [reflexivity | lia].
  - apply between_spec in Hu. change (code "A") with 65 in Hu.
    change (code "Z") with 90 in Hu.
    destruct (upper_letter c Hu) as [-> ->].
    destruct (lower_letter d ltac:(lia)) as [-> ->]. split; [reflexivity | lia].
Qed.

(** X15.  In base 16 the case of a letter does not matter: two ranges that
    differ only in the case of their letters give the same outcome. *)
Theorem hex_range_ignores_case (a b : list ascii) :
  Forall2 same_letter a b -> integer_range a 16 = integer_range b 16.
Proof.
  intros H. rewrite !hex_branch.
  assert (P : forall this, parse_hex a this = parse_hex b this).
  { induction H as [|c d a b Hcd _ IH]; intros this; [reflexivity|].
    rewrite !parse_hex_step. destruct (same_letter_step c d Hcd) as [-> ->].
    destruct (hex_accepted d); [apply IH | reflexivity]. }
  destruct H; [reflexivity|]. rewrite P. reflexivity.
Qed.

Lemma hex_range_ignores_case_witness :
  Forall2 same_letter (range_of "c9E") (range_of "C9e") /\
  integer_range (range_of "c9E") 16 = integer_range (range_of "C9e") 16.
Proof.
  assert (H : Forall2 same_letter (range_of "c9E") (range_of "C9e")).
  { apply Forall2_cons; [right; left; split; reflexivity|].
    apply Forall2_cons; [left; reflexivity|].
    apply Forall2_cons; [right; right; split; reflexivity|].
    apply Forall2_nil. }
  exact (conj H (hex_range_ignores_case _ _ H)).
Defined.

(** ** The errors of the iterator constructor *)

(** X16.  The constructor throws nothing but three errors, each tied to its
    branch: the non-digit error only with a base in 2..10, the
    non-alphanumeric error only with base 16, and the bad-base error only
    with a base outside {2..10, 16, 256}; with base 256 it never throws. *)
Theorem integer_range_errors (input : list ascii) (base : Z) (e : exn) :
  integer_range input base = Throws e ->
  (e = NonDigit /\ 2 <= base <= 10) \/
  (e = NonAlphanumeric /\ base = 16) \/
  (e = BadBaseProvided base /\ accepted_base base = false).
Proof.
  intros E. destruct (accepted_base base) eqn:Hb.
  - unfold accepted_base in Hb.
    destruct ((2 <=? base) && (base <=? 10)) eqn:H10.
    + left. assert (Hr : 2 <= base <= 10) by lia. split; [|exact Hr].
      pose proof (decimal_range_outcome input base Hr) as O.
      destruct (forallb isdigit input); [destruct O as [x Ex]|]; congruence.
    + destruct (Z.eqb_spec base 16) as [->|H16].
      * right. left. split; [|reflexivity].
        pose proof (hex_range_outcome input) as O.
        destruct (forallb hex_accepted input); [destruct O as [x Ex]|];
          congruence.
      * cbn [orb] in Hb. apply Z.eqb_eq in Hb. subst base.
        rewrite integer_range_bytes in E. discriminate.
  - right. right. split; [|reflexivity].
    unfold accepted_base in Hb.
    apply orb_false_elim in Hb as [Hb H256].
    apply orb_false_elim in Hb as [H10 H16].
    unfold integer_range in E. destruct input as [|c rest]; [discriminate|].
    rewrite H10, H16, H256 in E. cbn [bind] in E. congruence.
Qed.

Lemma integer_range_errors_witness :
  integer_range (range_of "12a") 10 = Throws NonDigit /\
  ((NonDigit = NonDigit /\ 2 <= 10 <= 10) \/
   (NonDigit = NonAlphanumeric /\ 10 = 16) \/
   (NonDigit = BadBaseProvided 10 /\ accepted_base 10 = false)).
Proof.
  assert (H : integer_range (range_of "12a") 10 = Throws NonDigit) by reflexivity.
  exact (conj H (integer_range_errors (range_of "12a") 10 NonDigit H)).
Defined.

(** ** More on [log] *)

(** The count of [log] grows with the magnitude of the value. *)
Lemma log_count_mono (b A1 A2 k1 k2 : Z) :
  2 <= b -> 0 <= A1 <= A2 ->
  (A1 = 0 -> k1 = 0) -> (A1 <> 0 -> 0 < k1 /\ b ^ (k1 - 1) <= A1 < b ^ k1) ->
  (A2 = 0 -> k2 = 0) -> (A2 <> 0 -> 0 < k2 /\ b ^ (k2 - 1) <= A2 < b ^ k2) ->
  k1 <= k2.
Proof.
  intros Hb HA Z1 N1 Z2 N2.
  destruct (Z.eq_dec A1 0) as [E1|E1].
  - rewrite (Z1 E1). destruct (Z.eq_dec A2 0) as [E2|E2]; [rewrite (Z2 E2)|];
      [lia | destruct (N2 E2); lia].
  - destruct (N1 E1) as (P1 & L1 & U1).
    destruct (N2 ltac:(lia)) as (P2 & L2 & U2).
    destruct (Z.le_gt_cases k1 k2) as [|Hgt]; [assumption|].
    assert (b ^ k2 <= b ^ (k1 - 1)) by (apply Z.pow_le_mono_r; lia). lia.
Qed.

Lemma log_count (t : ctype) (fuel : nat) (v : integer) (b : Z) :
  In t native_types -> 2 <= b <= max_value t -> wf v ->
  (Z.to_nat (Z.abs (value v)) < fuel)%nat ->
  exists c, log t fuel v b = Returns c /\ wf c /\
    (Z.abs (value v) = 0 -> value c = 0) /\
    (Z.abs (value v) <> 0 ->
     0 < value c /\ b ^ (value c - 1) <= Z.abs (value v) < b ^ value c).
Proof.
  intros Ht Hb Wv Hf. unfold log.
  destruct (integer_of_spec t Ht b ltac:(lia)) as (Wb & Vb & _).
  destruct (log_loop_spec (integer_of t b) Wb ltac:(lia) fuel v
              (integer_of int32_t 0))
    as (c & k & E & Wc & V & K0 & K1); trivial.
  { rewrite integer_nought. apply integer_zero_wf. }
  change (value (integer_of int32_t 0)) with 0 in V. rewrite Vb in K1.
  exists c. replace (value c) with k by lia.
  refine (conj E (conj Wc (conj _ _))); intros H; [apply K0 | apply K1]; lia.
Qed.

(** X17.  With a base [b >= 2] of a native type [log] returns, within
    [|v| + 1] rounds, a well-formed integer that counts the base-[b] digits
    of the value: zero for zero, and otherwise the [k] with
    [b^(k-1) <= |v| < b^k]. *)
Theorem log_digit_count (t : ctype) (fuel : nat) (v : integer) (b : Z) :
  In t native_types -> 2 <= b <= max_value t -> wf v ->
  (Z.to_nat (Z.abs (value v)) < fuel)%nat ->
  exists c, log t fuel v b = Returns c /\ wf c /\
    (value v = 0 -> value c = 0) /\
    (value v <> 0 ->
     0 < value c /\ b ^ (value c - 1) <= Z.abs (value v) < b ^ value c).
Proof.
  intros Ht Hb Wv Hf.
  destruct (log_count t fuel v b Ht Hb Wv Hf) as (c & E & Wc & C0 & C1).
  exists c. refine (conj E (conj Wc (conj _ _))); intros H;
    [apply C0 | apply C1]; lia.
Qed.

Lemma log_digit_count_witness :
  let v := {| _sign := true; _value := [255] |} in
  In uint8_t native_types /\ 2 <= 2 <= max_value uint8_t /\ wf v /\
  (Z.to_nat (Z.abs (value v)) < 256)%nat /\
  exists c, log uint8_t 256 v 2 = Returns c /\ wf c /\
    (value v = 0 -> value c = 0) /\
    (value v <> 0 ->
     0 < value c /\ 2 ^ (value c - 1) <= Z.abs (value v) < 2 ^ value c).
Proof.
  intros v.
  assert (H1 : In uint8_t native_types) by (cbn; tauto).
  assert (H2 : 2 <= 2 <= max_value uint8_t) by (vm_compute; split; discriminate).
  assert (H3 : wf v) by (apply is_wf_wf; reflexivity).
  assert (H4 : (Z.to_nat (Z.abs (value v)) < 256)%nat) by (vm_compute; lia).
  exact (conj H1 (conj H2 (conj H3 (conj H4
           (log_digit_count uint8_t 256 v 2 H1 H2 H3 H4))))).
Defined.

(** X18.  [log] of zero is zero for every base argument, the bases 0 and 1
    included: the loop is not entered and nothing is divided. *)
Theorem log_of_zero (t : ctype) (fuel : nat) (v : integer) (b : Z) :
  wf v -> value v = 0 ->
  log t (S fuel) v b = Returns integer_zero.
Proof.
  intros Wv Hv. unfold log. cbn [log_loop].
  rewrite operator_bool_spec, Hv by assumption. reflexivity.
Qed.

Lemma log_of_zero_witness :
  wf integer_zero /\ value integer_zero = 0 /\
  log int32_t 1 integer_zero 0 = Returns integer_zero.
Proof.
  assert (H1 : wf integer_zero) by (apply is_wf_wf; reflexivity).
  assert (H2 : value integer_zero = 0) by reflexivity.
  exact (conj H1 (conj H2 (log_of_zero int32_t 0 integer_zero 0 H1 H2))).
Defined.

(** X19.  With base 1 [log] of a non-zero value never returns: dividing by
    one leaves the value as it is, so the loop [while (x)] goes on for
    ever. *)
Theorem log_base_one_never_returns (t : ctype) (fuel : nat) (v : integer) :
  In t native_types -> wf v -> value v <> 0 ->
  log t fuel v 1 = OutOfFuel.
Proof.
  intros Ht Wv Hv. unfold log.
  pose proof (max_value_bound t Ht) as Hm.
  destruct (integer_of_spec t Ht 1 ltac:(lia)) as (Wb & Vb & _).
  generalize (integer_of int32_t 0). revert v Wv Hv.
  induction fuel as [|fuel IH]; intros v Wv Hv count; [reflexivity|].
  cbn [log_loop]. rewrite operator_bool_spec by assumption.
  destruct (Z.eqb_spec (value v) 0); [contradiction|]. cbn [negb].
  destruct (operator_div_spec v (integer_of t 1) Wv Wb ltac:(lia))
    as (q & Eq & Wq & Vq & _).
  rewrite Eq. cbn [bind]. apply IH; [assumption|].
  rewrite Vq, Vb, Z.quot_1_r. assumption.
Qed.

Lemma log_base_one_never_returns_witness :
  let v := {| _sign := false; _value := [5] |} in
  In int32_t native_types /\ wf v /\ value v <> 0 /\
  log int32_t 1000 v 1 = OutOfFuel.
Proof.
  intros v.
  assert (H1 : In int32_t native_types) by (cbn; tauto).
  assert (H2 : wf v) by (apply is_wf_wf; reflexivity).
  assert (H3 : value v <> 0) by (vm_compute; discriminate).
  exact (conj H1 (conj H2 (conj H3
           (log_base_one_never_returns int32_t 1000 v H1 H2 H3)))).
Defined.

(** X20.  With base 0 [log] of a non-zero value ends in the division error:
    the base is not examined before the first division [x /= b]. *)
Theorem log_base_zero_throws (t : ctype) (fuel : nat) (v : integer) :
  In t native_types -> wf v -> value v <> 0 ->
  log t (S fuel) v 0 = Throws DivisionByZeroFound.
Proof.
  intros Ht Wv Hv. unfold log. cbn [log_loop].
  pose proof (max_value_bound t Ht) as Hm.
  destruct (integer_of_spec t Ht 0 ltac:(lia)) as (Wb & Vb & _).
  rewrite operator_bool_spec by assumption.
  destruct (Z.eqb_spec (value v) 0); [contradiction|]. cbn [negb].
  unfold operator_div, dm.
  rewrite operator_bool_spec by (apply abs_wf, Wb).
  rewrite abs_value, (wf_mag_abs _ Wb), Vb. reflexivity.
Qed.

Lemma log_base_zero_throws_witness :
  let v := {| _sign := false; _value := [5] |} in
  In int32_t native_types /\ wf v /\ value v <> 0 /\
  log int32_t 1 v 0 = Throws DivisionByZeroFound.
Proof.
  intros v.
  assert (H1 : In int32_t native_types) by (cbn; tauto).
  assert (H2 : wf v) by (apply is_wf_wf; reflexivity).
  assert (H3 : value v <> 0) by (vm_compute; discriminate).
  exact (conj H1 (conj H2 (conj H3
           (log_base_zero_throws int32_t 0 v H1 H2 H3)))).
Defined.

(** X21.  [log] depends on the magnitude of the value only and grows with
    it: for a base [b >= 2], a value of smaller or equal magnitude gets a
    smaller or equal count, so a value and its negation get the same
    count. *)
Theorem log_monotone (t : ctype) (fuel : nat) (v w : integer) (b : Z) :
  In t native_types -> 2 <= b <= max_value t -> wf v -> wf w ->
  Z.abs (value v) <= Z.abs (value w) ->
  (Z.to_nat (Z.abs (value w)) < fuel)%nat ->
  exists c d, log t fuel v b = Returns c /\ log t fuel w b = Returns d /\
    value c <= value d /\
    (Z.abs (value v) = Z.abs (value w) -> c = d).
Proof.
  intros Ht Hb Wv Ww Hle Hf.
  destruct (log_count t fuel v b Ht Hb Wv ltac:(lia)) as (c & Ec & Wc & C0 & C1).
  destruct (log_count t fuel w b Ht Hb Ww Hf) as (d & Ed & Wd & D0 & D1).
  exists c, d. refine (conj Ec (conj Ed (conj _ _))).
  - apply (log_count_mono b (Z.abs (value v)) (Z.abs (value w))); trivial; lia.
  - intros Heq. apply wf_value_inj; trivial. apply Z.le_antisymm.
    + apply (log_count_mono b (Z.abs (value v)) (Z.abs (value w))); trivial; lia.
    + apply (log_count_mono b (Z.abs (value w)) (Z.abs (value v))); trivial; lia.
Qed.

Lemma log_monotone_witness :
  let v := {| _sign := true; _value := [9] |} in
  let w := {| _sign := false; _value := [9] |} in
  In int32_t native_types /\ 2 <= 3 <= max_value int32_t /\ wf v /\ wf w /\
  Z.abs (value v) <= Z.abs (value w) /\
  (Z.to_nat (Z.abs (value w)) < 10)%nat /\
  exists c d, log int32_t 10 v 3 = Returns c /\ log int32_t 10 w 3 = Returns d /\
    value c <= value d /\
    (Z.abs (value v) = Z.abs (value w) -> c = d).
Proof.
  intros v w.
  assert (H1 : In int32_t native_types) by (cbn; tauto).
  assert (H2 : 2 <= 3 <= max_value int32_t) by (vm_compute; split; discriminate).
  assert (H3 : wf v) by (apply is_wf_wf; reflexivity).
  assert (H4 : wf w) by (apply is_wf_wf; reflexivity).
  assert (H5 : Z.abs (value v) <= Z.abs (value w)) by (vm_compute; discriminate).
  assert (H6 : (Z.to_nat (Z.abs (value w)) < 10)%nat) by (vm_compute; lia).
  exact (conj H1 (conj H2 (conj H3 (conj H4 (conj H5 (conj H6
           (log_monotone int32_t 10 v w 3 H1 H2 H3 H4 H5 H6))))))).
Defined.

(** ** More on [pow] *)

Lemma operator_eq_spec (a b : integer) :
  wf a -> wf b -> operator_eq a b = (value a =? value b).
Proof.
  intros Wa Wb. destruct (Z.eqb_spec (value a) (value b)) as [E|N].
  - rewrite (wf_value_inj a b Wa Wb E). unfold operator_eq, eq_digits.
    destruct (_value b); [reflexivity|].
    rewrite Bool.eqb_reflx. destruct (list_eq_dec Z.eq_dec _ _); [reflexivity|].
    contradiction.
  - unfold operator_eq, eq_digits.
    destruct (_value a) as [|x va] eqn:Ea, (_value b) as [|y vb] eqn:Eb.
    + exfalso. apply N. unfold value. rewrite Ea, Eb, mag_nil.
      destruct (_sign a), (_sign b); reflexivity.
    + destruct (list_eq_dec Z.eq_dec _ _); [discriminate | apply andb_false_r].
    + destruct (list_eq_dec Z.eq_dec _ _); [discriminate | apply andb_false_r].
    + destruct (list_eq_dec Z.eq_dec _ _) as [Ed|]; [|apply andb_false_r].
      destruct (Bool.eqb (_sign a) (_sign b)) eqn:Es; [|reflexivity].
      exfalso. apply N. apply Bool.eqb_prop in Es.
      unfold value. rewrite Ea, Eb, Es, Ed. reflexivity.
Qed.

Lemma integer_ten :
  wf (integer_of int32_t 10) /\ value (integer_of int32_t 10) = 10.
Proof. split; [apply is_wf_wf|]; reflexivity. Qed.

(** [pow] returns the power, within [e + 1] rounds. *)
Lemma pow_returns (t : ctype) (fuel : nat) (v : integer) (e : Z) :
  In t native_types -> 0 <= e <= max_value t -> (Z.to_nat e < fuel)%nat ->
  exists r, pow t fuel v e = Returns r /\ value r = value v ^ e /\
            (wf v -> wf r).
Proof.
  intros Ht He Hf. unfold pow.
  destruct (Z.ltb_spec e 0) as [Hneg|_]; [lia|].
  destruct (operator_eq v (integer_of int32_t 10)).
  - destruct (pow_ten_loop_spec t Ht v fuel 0 e (integer_of int32_t 1))
      as (r & E & V & W); try lia.
    exists r. refine (conj E (conj _ _)).
    + rewrite V, Z.sub_0_r. change (value (integer_of int32_t 1)) with 1. ring.
    + intros Wv. apply W; [assumption | apply integer_one_wf].
  - destruct (pow_loop_spec t Ht fuel e v (integer_of int32_t 1))
      as (r & E & V & W); try lia.
    exists r. refine (conj E (conj _ _)).
    + rewrite V. change (value (integer_of int32_t 1)) with 1. ring.
    + intros Wv. apply W; [assumption | apply integer_one_wf].
Qed.

(** X22.  Powers multiply: for exponents [e1, e2 >= 0] the power with
    exponent [e1 + e2] is the product of the powers with exponents [e1] and
    [e2], and for a well-formed base it is the very integer [operator*]
    gives for them. *)
Theorem pow_add (t : ctype) (fuel : nat) (v : integer) (e1 e2 : Z) :
  In t native_types -> 0 <= e1 -> 0 <= e2 -> e1 + e2 <= max_value t ->
  (Z.to_nat (e1 + e2) < fuel)%nat ->
  exists r1 r2 r,
    pow t fuel v e1 = Returns r1 /\ pow t fuel v e2 = Returns r2 /\
    pow t fuel v (e1 + e2) = Returns r /\
    value r = value r1 * value r2 /\
    (wf v -> r = operator_mul r1 r2).
Proof.
  intros Ht H1 H2 Hm Hf.
  destruct (pow_returns t fuel v e1 Ht ltac:(lia) ltac:(lia)) as (r1 & E1 & V1 & W1).
  destruct (pow_returns t fuel v e2 Ht ltac:(lia) ltac:(lia)) as (r2 & E2 & V2 & W2).
  destruct (pow_returns t fuel v (e1 + e2) Ht ltac:(lia) Hf) as (r & E & V & W).
  exists r1, r2, r.
  assert (Hv : value r = value r1 * value r2).
  { rewrite V, V1, V2. apply Z.pow_add_r; assumption. }
  refine (conj E1 (conj E2 (conj E (conj Hv _)))).
  intros Wv. apply wf_value_inj; [apply W, Wv | |].
  - apply operator_mul_wf; [apply W1 | apply W2]; exact Wv.
  - rewrite operator_mul_value. exact Hv.
Qed.

Lemma pow_add_witness :
  let v := {| _sign := true; _value := [3] |} in
  In uint8_t native_types /\ 0 <= 2 /\ 0 <= 3 /\ 2 + 3 <= max_value uint8_t /\
  (Z.to_nat (2 + 3) < 6)%nat /\
  exists r1 r2 r,
    pow uint8_t 6 v 2 = Returns r1 /\ pow uint8_t 6 v 3 = Returns r2 /\
    pow uint8_t 6 v (2 + 3) = Returns r /\
    value r = value r1 * value r2 /\
    (wf v -> r = operator_mul r1 r2).
Proof.
  intros v.
  assert (H0 : In uint8_t native_types) by (cbn; tauto).
  assert (H1 : 0 <= 2) by lia.
  assert (H2 : 0 <= 3) by lia.
  assert (H3 : 2 + 3 <= max_value uint8_t) by (vm_compute; discriminate).
  assert (H4 : (Z.to_nat (2 + 3) < 6)%nat) by (vm_compute; lia).
  exact (conj H0 (conj H1 (conj H2 (conj H3 (conj H4
           (pow_add uint8_t 6 v 2 3 H0 H1 H2 H3 H4)))))).
Defined.

Lemma wf_sign_negative (x : integer) : wf x -> _sign x = (value x <? 0).
Proof.
  intros W. destruct (Z.ltb_spec (value x) 0) as [Hn|Hp].
  - destruct (_sign x) eqn:E; [reflexivity|].
    pose proof (wf_mag_nonneg x W). unfold value in Hn. rewrite E in Hn. lia.
  - apply wf_nonneg_sign; assumption.
Qed.

(** X23.  The power of a well-formed base carries the negative sign flag
    exactly when the base is negative and the exponent is odd. *)
Theorem pow_sign (t : ctype) (fuel : nat) (v : integer) (e : Z) :
  In t native_types -> wf v -> 0 <= e <= max_value t ->
  (Z.to_nat e < fuel)%nat ->
  exists r, pow t fuel v e = Returns r /\
            _sign r = (value v <? 0) && Z.odd e.
Proof.
  intros Ht Wv He Hf.
  destruct (pow_returns t fuel v e Ht He Hf) as (r & E & V & W).
  exists r. split; [exact E|]. rewrite (wf_sign_negative r (W Wv)), V.
  destruct (Z.ltb_spec (value v) 0) as [Hn|Hp]; cbn [andb].
  - replace (value v) with (- Z.abs (value v)) by lia.
    assert (Hpos : 0 < Z.abs (value v) ^ e)
      by (apply Z.pow_pos_nonneg; lia).
    destruct (Z.odd e) eqn:Ho.
    + rewrite Z.pow_opp_odd by (apply Z.odd_spec, Ho). apply Z.ltb_lt. lia.
    + rewrite Z.pow_opp_even.
      * apply Z.ltb_ge. lia.
      * apply Z.even_spec. rewrite <- Z.negb_odd, Ho. reflexivity.
  - apply Z.ltb_ge. apply Z.pow_nonneg. assumption.
Qed.

Lemma pow_sign_witness :
  let v := {| _sign := true; _value := [2] |} in
  In int16_t native_types /\ wf v /\ 0 <= 7 <= max_value int16_t /\
  (Z.to_nat 7 < 8)%nat /\
  exists r, pow int16_t 8 v 7 = Returns r /\
            _sign r = (value v <? 0) && Z.odd 7.
Proof.
  intros v.
  assert (H1 : In int16_t native_types) by (cbn; tauto).
  assert (H2 : wf v) by (apply is_wf_wf; reflexivity).
  assert (H3 : 0 <= 7 <= max_value int16_t) by (vm_compute; split; discriminate).
  assert (H4 : (Z.to_nat 7 < 8)%nat) by (vm_compute; lia).
  exact (conj H1 (conj H2 (conj H3 (conj H4 (pow_sign int16_t 8 v 7 H1 H2 H3 H4))))).
Defined.

Section PowRounds.

Variable t : ctype.
Hypothesis native : In t native_types.

(** The counting loop does not finish in fewer rounds than it has values of
    [x] to go through. *)
Lemma pow_ten_loop_short (this : integer) (exp : Z) :
  exp <= max_value t ->
  forall (fuel : nat) (x : Z) (result : integer),
  0 <= x -> (fuel <= Z.to_nat (exp - x))%nat ->
  pow_ten_loop t fuel this x exp result = OutOfFuel.
Proof.
  intros He. induction fuel as [|fuel IH]; intros x result Hx Hf; [reflexivity|].
  cbn [pow_ten_loop]. destruct (Z.ltb_spec x exp) as [Hlt|Hge]; [|lia].
  rewrite (wrap_in_range t native) by (apply (in_range_nonneg t native); lia).
  apply IH; lia.
Qed.

(** The squaring loop finishes after one round per bit of the exponent and
    the final test. *)
Lemma pow_loop_rounds :
  forall (fuel : nat) (exp : Z) (b result : integer),
  0 <= exp <= max_value t ->
  (exp = 0 -> (1 <= fuel)%nat) ->
  (0 < exp -> (Z.to_nat (Z.log2 exp) + 2 <= fuel)%nat) ->
  exists r, pow_loop t fuel exp b result = Returns r.
Proof.
  induction fuel as [|fuel IH]; intros exp b result He H0 H1.
  - destruct (Z.eq_dec exp 0); [specialize (H0 ltac:(assumption)) |
                                specialize (H1 ltac:(lia))]; lia.
  - cbn [pow_loop]. destruct (Z.eqb_spec exp 0) as [->|Hne].
    + eexists; reflexivity.
    + specialize (H1 ltac:(lia)).
      assert (Hs : Z.shiftr exp 1 = exp / 2)
        by (rewrite Z.shiftr_div_pow2 by lia; reflexivity).
      assert (Hh : 0 <= exp / 2 < exp) by (Z.div_mod_to_equations; lia).
      pose proof (Z.log2_shiftr exp 1 ltac:(lia)) as Hl. rewrite Hs in *.
      pose proof (Z.log2_nonneg exp).
      rewrite (wrap_in_range t native) by (apply (in_range_nonneg t native); lia).
      apply IH; try lia.
      intros Hp. rewrite Hl.
      assert (0 < Z.log2 exp).
      { apply Z.log2_pos. Z.div_mod_to_equations. lia. }
      lia.
Qed.

End PowRounds.

(** X24.  The two loops of [pow] need different numbers of rounds for an
    exponent [e > 0]: the repeated multiplication taken for the base ten
    does not finish within [e] rounds, while the squaring loop taken for
    every other base finishes within [log2 e + 2] rounds. *)
Theorem pow_rounds (t : ctype) (fuel : nat) (v : integer) (e : Z) :
  In t native_types -> wf v -> 0 < e <= max_value t ->
  (value v = 10 -> (fuel <= Z.to_nat e)%nat -> pow t fuel v e = OutOfFuel) /\
  (value v <> 10 -> (Z.to_nat (Z.log2 e) + 2 <= fuel)%nat ->
   exists r, pow t fuel v e = Returns r).
Proof.
  intros Ht Wv He. destruct integer_ten as [W10 V10]. unfold pow.
  destruct (Z.ltb_spec e 0); [lia|].
  rewrite (operator_eq_spec v _ Wv W10), V10. split; intros Hv Hf.
  - rewrite Hv. change (10 =? 10) with true. cbv iota.
    apply (pow_ten_loop_short t Ht); lia.
  - destruct (Z.eqb_spec (value v) 10); [contradiction|].
    apply (pow_loop_rounds t Ht); lia.
Qed.

Lemma pow_rounds_witness :
  let v := {| _sign := false; _value := [10] |} in
  In int32_t native_types /\ wf v /\ 0 < 6 <= max_value int32_t /\
  (value v = 10 -> (6 <= Z.to_nat 6)%nat -> pow int32_t 6 v 6 = OutOfFuel) /\
  (value v <> 10 -> (Z.to_nat (Z.log2 6) + 2 <= 6)%nat ->
   exists r, pow int32_t 6 v 6 = Returns r).
Proof.
  intros v.
  assert (H1 : In int32_t native_types) by (cbn; tauto).
  assert (H2 : wf v) by (apply is_wf_wf; reflexivity).
  assert (H3 : 0 < 6 <= max_value int32_t) by (vm_compute; split; [reflexivity | discriminate]).
  exact (conj H1 (conj H2 (conj H3 (pow_rounds int32_t 6 v 6 H1 H2 H3)))).
Defined.

(** ** The digits of an integer and the base-256 constructor *)

Lemma code_byte_of (d : Z) : digit d -> code (byte_of d) = d.
Proof.
  unfold digit, code, byte_of. unbase. intros Hd.
  rewrite N_ascii_embedding by lia. lia.
Qed.

Lemma codes_of_digits (v : REP) : Forall digit v -> map code (map byte_of v) = v.
Proof.
  induction 1 as [|d v Hd _ IH]; [reflexivity|].
  cbn [map]. rewrite IH, (code_byte_of d Hd). reflexivity.
Qed.

(** X25.  The base-256 constructor rebuilds a non-negative integer from its
    own digits: handing the digits of a well-formed, non-negative integer to
    the constructor as bytes returns that integer. *)
Theorem bytes_range_of_digits (x : integer) :
  wf x -> _sign x = false ->
  integer_range (map byte_of (_value x)) 256 = Returns x.
Proof.
  intros [Hd Ht _] Hs. rewrite integer_range_bytes, (codes_of_digits _ Hd).
  f_equal. unfold integer_rep, trim. cbn [_value _sign].
  rewrite (trim_digits_fixed _ Ht). destruct x as [s v]. cbn in *. subst s.
  destruct v; reflexivity.
Qed.

Lemma bytes_range_of_digits_witness :
  let x := {| _sign := false; _value := [1; 0; 255] |} in
  wf x /\ _sign x = false /\
  integer_range (map byte_of (_value x)) 256 = Returns x.
Proof.
  intros x.
  assert (H1 : wf x) by (apply is_wf_wf; reflexivity).
  assert (H2 : _sign x = false) by reflexivity.
  exact (conj H1 (conj H2 (bytes_range_of_digits x H1 H2))).
Defined.
